(** * Speed Reader: the word-presentation engine of [components/Reader.tsx]

    A shallow embedding of the tokenizer, the Spritz optimal-recognition-point
    split and the playback loop of the [Reader] component, with the React
    state ([index], [isPlaying]), the [timeoutRef] ref and the browser's
    pending timers made explicit; around it the book list of [App], the
    import paths of [Library], the archive paths of the EPUB service and the
    download flow of [GutenbergExplorer]. *)

From Stdlib Require Import String Ascii QArith Qround ZArith NArith Bool Lia List.
Import ListNotations.
Open Scope Z_scope.

(** ** JavaScript strings

    A JavaScript string is a sequence of UTF-16 code units; [length],
    [substring], [charAt] and the regular expression [\s] all work on code
    units. *)

Definition char16 := N.
Definition jsstring := list char16.

(** Literals of the examples: ASCII text as code units. *)
Fixpoint lit (s : string) : jsstring :=
  match s with
  | EmptyString => []
  | String a rest => N_of_ascii a :: lit rest
  end.

Definition jslength (s : jsstring) : Z := Z.of_nat (length s).

(** [\s] of ECMAScript: WhiteSpace and LineTerminator code points. *)
Definition is_ws (c : char16) : bool :=
  ((9 <=? c) && (c <=? 13) || (c =? 32) || (c =? 160) || (c =? 5760)
   || (8192 <=? c) && (c <=? 8202) || (c =? 8232) || (c =? 8233)
   || (c =? 8239) || (c =? 8287) || (c =? 12288) || (c =? 65279))%N.

(** [String.prototype.substring(start, end)]: both bounds are clamped to
    [0, length] and swapped when [start > end]. *)
Definition substring (s : jsstring) (start finish : Z) : jsstring :=
  let len := jslength s in
  let a := Z.min (Z.max start 0) len in
  let b := Z.min (Z.max finish 0) len in
  let from := Z.min a b in
  let to := Z.max a b in
  firstn (Z.to_nat (to - from)) (skipn (Z.to_nat from) s).

(** [substring(start)]: the end defaults to the length. *)
Definition substring_from (s : jsstring) (start : Z) : jsstring :=
  substring s start (jslength s).

(** [String.prototype.charAt(pos)]: the one-unit string at [pos], or the empty
    string out of range. *)
Definition charAt (s : jsstring) (pos : Z) : jsstring :=
  if (0 <=? pos) && (pos <? jslength s)
  then match nth_error s (Z.to_nat pos) with Some c => [c] | None => [] end
  else [].

(** ** Tokenizer: [book.content.split(/\s+/).filter(w => w.length > 0)] *)

(** [split(/\s+/)]: the scanner walks the string; [cur] holds (reversed) the
    piece since the end of the last separator, [in_gap] says that the previous
    unit belonged to a separator match, which [\s+] extends greedily.  The
    piece after the last separator is always pushed, so the empty string
    splits into one empty piece. *)
Fixpoint split_from (in_gap : bool) (cur : jsstring) (s : jsstring)
  : list jsstring :=
  match s with
  | [] => [rev cur]
  | c :: rest =>
      if is_ws c then
        if in_gap then split_from true cur rest
        else rev cur :: split_from true [] rest
      else split_from false (c :: cur) rest
  end.

Definition split_ws (s : jsstring) : list jsstring := split_from false [] s.

(** [w => w.length > 0] *)
Definition nonempty (w : jsstring) : bool := 0 <? jslength w.

Definition tokenize (content : jsstring) : list jsstring :=
  filter nonempty (split_ws content).

(** The tokenizer as the specification words it: the text is a sequence of
    words separated by runs of one or more whitespace units, with optional
    whitespace before the first and after the last word. *)
Inductive Tokens : jsstring -> list jsstring -> Prop :=
| Tokens_blank : forall s,
    forallb is_ws s = true -> Tokens s []
| Tokens_word : forall gap w rest ts,
    forallb is_ws gap = true ->
    w <> [] ->
    forallb (fun c => negb (is_ws c)) w = true ->
    match rest with [] => True | c :: _ => is_ws c = true end ->
    Tokens rest ts ->
    Tokens (gap ++ w ++ rest) (w :: ts).

(** ** ORP calculator: [getSpritzWord] *)

Record SpritzWord := mkSpritz {
  prefix : jsstring;
  orp : jsstring;
  suffix : jsstring
}.

(** The [if]/[else if] chain on [len] of [getSpritzWord]. *)
Definition orpIndex (len : Z) : Z :=
  if len =? 1 then 0
  else if (2 <=? len) && (len <=? 5) then 1
  else if (6 <=? len) && (len <=? 9) then 2
  else if (10 <=? len) && (len <=? 13) then 3
  else 4.

(** [!word] is true of the empty string. *)
Definition getSpritzWord (word : jsstring) : SpritzWord :=
  match word with
  | [] => mkSpritz [] [] []
  | _ =>
      let i := orpIndex (jslength word) in
      mkSpritz (substring word 0 i) (charAt word i) (substring_from word (i + 1))
  end.

(** The pivot table of the specification, keyed by the token length. *)
Definition pivot_table (L : Z) : Z :=
  if L <=? 1 then 0
  else if L <=? 5 then 1
  else if L <=? 9 then 2
  else if L <=? 13 then 3
  else 4.

(** ** Numbers shown by the progress indicator

    A JavaScript division of two integers never throws: a zero divisor gives
    [NaN] (for [0 / 0]) or an infinity. *)
Inductive jsnum :=
| Num (q : Q)
| NaN
| Infinity
| NegInfinity.

Definition js_div (a b : Z) : jsnum :=
  if b =? 0 then
    if a =? 0 then NaN else if 0 <? a then Infinity else NegInfinity
  else Num (inject_Z a / inject_Z b)%Q.

Definition js_times100 (x : jsnum) : jsnum :=
  match x with
  | Num q => Num (q * 100)%Q
  | other => other
  end.

Definition js_round (x : jsnum) : jsnum :=
  match x with
  | Num q => Num (inject_Z (Qfloor (q + (1 # 2))))%Q
  | other => other
  end.

(** [x || d] on numbers: zero is falsy. *)
Definition js_or (x d : Z) : Z := if x =? 0 then d else x.

(** ** The reader session *)

(** [Book] of [types.ts]. *)
Record Book := mkBook {
  id : jsstring;
  title : jsstring;
  content : jsstring;
  lastPosition : Z;
  addedAt : Z
}.

(** A timer armed with [window.setTimeout].  Its callback is the closure built
    by [scheduleNext], which reads [settings.wpm] of the render whose effect
    created it: [closure_wpm]. *)
Record Timer := mkTimer {
  tid : Z;
  due : Z;
  closure_wpm : Z
}.

(** The component's state [index], [isPlaying]; the prop [settings.wpm]; the
    refs [words] and [timeoutRef]; and the window's side: the timers that are
    armed, a virtual clock in milliseconds and the next timer id. *)
Record Session := mkSession {
  words : list jsstring;
  index : Z;
  isPlaying : bool;
  wpm : Z;
  timeoutRef : option Z;
  pending : list Timer;
  clock : Z;
  fresh : Z
}.

Definition set_index (i : Z) (st : Session) : Session :=
  mkSession (words st) i (isPlaying st) (wpm st) (timeoutRef st)
            (pending st) (clock st) (fresh st).

Definition set_isPlaying (b : bool) (st : Session) : Session :=
  mkSession (words st) (index st) b (wpm st) (timeoutRef st)
            (pending st) (clock st) (fresh st).

Definition set_wpm (w : Z) (st : Session) : Session :=
  mkSession (words st) (index st) (isPlaying st) w (timeoutRef st)
            (pending st) (clock st) (fresh st).

Definition set_pending (l : list Timer) (st : Session) : Session :=
  mkSession (words st) (index st) (isPlaying st) (wpm st) (timeoutRef st)
            l (clock st) (fresh st).

Definition set_clock (now : Z) (st : Session) : Session :=
  mkSession (words st) (index st) (isPlaying st) (wpm st) (timeoutRef st)
            (pending st) now (fresh st).

(** [words.current.length] *)
Definition wordCount (st : Session) : Z := Z.of_nat (length (words st)).

(** *** Timers *)

(** [const delay = 60000 / settings.wpm], as [setTimeout] takes it: the
    timeout is converted to an integer number of milliseconds by truncation,
    and a negative one counts as zero.  (A zero [wpm] gives an infinite delay,
    which converts to 0, as [Z.quot] by zero does.) *)
Definition tickDelay (w : Z) : Z := Z.max 0 (Z.quot 60000 w).

Definition without (i : Z) (l : list Timer) : list Timer :=
  filter (fun t => negb (tid t =? i)) l.

Definition clearTimeout (i : Z) (st : Session) : Session :=
  set_pending (without i (pending st)) st.

(** [if (timeoutRef.current) clearTimeout(timeoutRef.current)]: [null] and 0
    are falsy.  The ref keeps the id. *)
Definition clearRef (st : Session) : Session :=
  match timeoutRef st with
  | Some i => if i =? 0 then st else clearTimeout i st
  | None => st
  end.

(** [timeoutRef.current = window.setTimeout(callback, delay)] with the [wpm]
    the closure captured. *)
Definition scheduleNext (w : Z) (st : Session) : Session :=
  mkSession (words st) (index st) (isPlaying st) (wpm st)
            (Some (fresh st))
            (pending st ++ [mkTimer (fresh st) (clock st + tickDelay w) w])
            (clock st) (fresh st + 1).

(** *** The playback effect, with dependencies [[isPlaying, settings.wpm]] *)

Definition effectBody (st : Session) : Session :=
  if isPlaying st then scheduleNext (wpm st) st else clearRef st.

Definition effectCleanup (st : Session) : Session := clearRef st.

(** A render in which a dependency changed: the cleanup of the previous run,
    then the body. *)
Definition rerunEffect (st : Session) : Session :=
  effectBody (effectCleanup st).

(** Mounting the component for [book] at time [now]:
    [useState(book.lastPosition || 0)], [useState(false)],
    [useRef(null)], the tokenized content, and the first run of the effect. *)
Definition openBook (now : Z) (book : Book) (settings_wpm : Z) : Session :=
  effectBody
    (mkSession (tokenize (content book)) (js_or (lastPosition book) 0) false
               settings_wpm None [] now 1).

(** *** Handlers *)

Definition handleTogglePlay (st : Session) : Session :=
  rerunEffect (set_isPlaying (negb (isPlaying st)) st).

Definition handleSkip (amount : Z) (st : Session) : Session :=
  let next := Z.max 0 (Z.min (wordCount st - 1) (index st + amount)) in
  set_index next st.

Definition handleReset (st : Session) : Session :=
  let st' := set_isPlaying false (set_index 0 st) in
  if isPlaying st then rerunEffect st' else st'.

(** [onUpdateSettings({ wpm })]: the parent re-renders the reader with the new
    setting; the effect runs again when the value differs. *)
Definition setRate (w : Z) (st : Session) : Session :=
  if w =? wpm st then st else rerunEffect (set_wpm w st).

(** The callback of timer [t]: it queues the [setIndex] updater and calls
    [scheduleNext()]; React then applies the updater, and the effect runs
    again if [setIsPlaying(false)] changed [isPlaying]. *)
Definition tick (t : Timer) (st : Session) : Session :=
  let st1 := scheduleNext (closure_wpm t) st in
  if wordCount st1 - 1 <=? index st1 then
    let st2 := set_isPlaying false st1 in
    if isPlaying st1 then rerunEffect st2 else st2
  else set_index (index st1 + 1) st1.

(** *** The window's timer queue *)

(** The armed timer that is due first (the one armed first among equals). *)
Fixpoint earliest (l : list Timer) : option Timer :=
  match l with
  | [] => None
  | t :: rest =>
      match earliest rest with
      | Some u => if due u <? due t then Some u else Some t
      | None => Some t
      end
  end.

(** The next timer fires, at its due time or now if that is past. *)
Definition fire (st : Session) : Session :=
  match earliest (pending st) with
  | None => st
  | Some t =>
      tick t (set_clock (Z.max (clock st) (due t))
                        (set_pending (without (tid t) (pending st)) st))
  end.

(** Time passes without any timer firing: only up to the next due time. *)
Definition idle (ms : Z) (st : Session) : Session :=
  if (0 <=? ms) && forallb (fun t => clock st + ms <=? due t) (pending st)
  then set_clock (clock st + ms) st
  else st.

(** The virtual clock runs to [target], firing every timer due by then in
    order; [None] when [fuel] firings were not enough. *)
Fixpoint advanceTo (fuel : nat) (target : Z) (st : Session) : option Session :=
  match earliest (pending st) with
  | None => Some (set_clock (Z.max (clock st) target) st)
  | Some t =>
      if due t <=? target then
        match fuel with
        | O => None
        | S n => advanceTo n target (fire st)
        end
      else Some (set_clock (Z.max (clock st) target) st)
  end.

Inductive event :=
| TogglePlay
| Skip (amount : Z)
| Reset
| SetRate (w : Z)
| Fire
| Idle (ms : Z).

Definition step (e : event) (st : Session) : Session :=
  match e with
  | TogglePlay => handleTogglePlay st
  | Skip amount => handleSkip amount st
  | Reset => handleReset st
  | SetRate w => setRate w st
  | Fire => fire st
  | Idle ms => idle ms st
  end.

(** The states a session of [book] can be in. *)
Inductive reachable (now : Z) (book : Book) (w : Z) : Session -> Prop :=
| reach_open : reachable now book w (openBook now book w)
| reach_step : forall e st,
    reachable now book w st -> reachable now book w (step e st).

(** *** What the component renders *)

(** [getSpritzWord(words.current[index])]: out of range the word is
    [undefined], which [!word] catches. *)
Definition currentSpritz (st : Session) : SpritzWord :=
  if index st <? 0 then mkSpritz [] [] []
  else match nth_error (words st) (Z.to_nat (index st)) with
       | Some word => getSpritzWord word
       | None => mkSpritz [] [] []
       end.

(** [(index / (words.current.length - 1)) * 100], the width of the bar. *)
Definition progressWidth (st : Session) : jsnum :=
  js_times100 (js_div (index st) (wordCount st - 1)).

(** [Math.round((index / words.current.length) * 100)] *)
Definition progressPercent (st : Session) : jsnum :=
  js_round (js_times100 (js_div (index st) (wordCount st))).


(** [clamp(x, lo, hi)] of the specification. *)
Definition clamp (x lo hi : Z) : Z :=
  if x <? lo then lo else if hi <? x then hi else x.

(** [c => !/\s/.test(c)], the units that make up words. *)
Definition not_ws (c : char16) : bool := negb (is_ws c).

(** *** Invariants of the timer slot *)

(** At most one timer is armed, and it is the one [timeoutRef] names. *)
Definition one_slot (st : Session) : Prop :=
  pending st = []
  \/ exists t, pending st = [t] /\ timeoutRef st = Some (tid t)
               /\ 0 < tid t < fresh st.

(** Timer ids are positive, and nothing is armed while paused. *)
Definition timer_inv (st : Session) : Prop :=
  0 < fresh st /\ (isPlaying st = false -> pending st = []) /\ one_slot st.

(** A timer that is armed before the rate change is still
    armed after it. *)
Definition pending_tick_kept (st : Session) (w : Z) : Prop :=
  forall t, In t (pending st) -> In t (pending (setRate w st)).

(** *** Sample books *)

Definition fiveWordsAt (position : Z) : Book :=
  mkBook (lit "k3x9q") (lit "Five") (lit "one two three four five") position 0.

Definition fiveWords : Book := fiveWordsAt 0.

Definition blankBookAt (position : Z) : Book :=
  mkBook (lit "p0w2e") (lit "Blank") (lit " ") position 0.

Definition blankBook : Book := blankBookAt 0.

Definition oneWord : Book :=
  mkBook (lit "z81mc") (lit "One") (lit "word") 0 0.

(** ** The assist requests of the reader: [handleSummarize], [handleExplain] *)

(** [Array.prototype.slice(start, end)]: a negative bound counts from the end,
    both are clamped to [0, length], and an empty range gives the empty
    array. *)
Definition slice {A : Type} (l : list A) (start finish : Z) : list A :=
  let len := Z.of_nat (length l) in
  let k := if start <? 0 then Z.max (len + start) 0 else Z.min start len in
  let final := if finish <? 0 then Z.max (len + finish) 0
               else Z.min finish len in
  firstn (Z.to_nat (Z.max (final - k) 0)) (skipn (Z.to_nat k) l).

(** [Array.prototype.join(sep)] on an array of strings. *)
Fixpoint join (sep : jsstring) (l : list jsstring) : jsstring :=
  match l with
  | [] => []
  | w :: rest =>
      match rest with
      | [] => w
      | _ :: _ => w ++ sep ++ join sep rest
      end
  end.

(** The bounds [start], [end] of [handleSummarize]. *)
Definition summaryStart (st : Session) : Z := Z.max 0 (index st - 50).
Definition summaryEnd (st : Session) : Z :=
  Z.min (wordCount st) (index st + 300).

(** [words.current.slice(start, end).join(" ")], the text sent to
    [summarizePassage]. *)
Definition summaryContext (st : Session) : jsstring :=
  join (lit " ") (slice (words st) (summaryStart st) (summaryEnd st)).

(** [words.current[index]], [undefined] out of range. *)
Definition currentWord (st : Session) : option jsstring :=
  if index st <? 0 then None else nth_error (words st) (Z.to_nat (index st)).

Definition explainStart (st : Session) : Z := Z.max 0 (index st - 10).
Definition explainEnd (st : Session) : Z :=
  Z.min (wordCount st) (index st + 10).

(** The [context] argument of [explainWord] in [handleExplain]. *)
Definition explainContext (st : Session) : jsstring :=
  join (lit " ") (slice (words st) (explainStart st) (explainEnd st)).

(** A string that [tokenize] can produce as a token. *)
Definition is_token (w : jsstring) : Prop :=
  w <> [] /\ forallb (fun c => negb (is_ws c)) w = true.

(** *** Running sessions *)

(** Playing, with the one armed timer due at [at_time], carrying the current
    rate and named by [timeoutRef]. *)
Definition ticking (st : Session) (at_time : Z) : Prop :=
  isPlaying st = true
  /\ 0 < fresh st
  /\ clock st <= at_time
  /\ exists i, i <> 0
       /\ pending st = [mkTimer i at_time (wpm st)]
       /\ timeoutRef st = Some i.

(** The cursor points at a token. *)
Definition cursor_ok (st : Session) : Prop :=
  0 <= index st <= wordCount st - 1.

(** ** The library card

    [book.content.split(/\s+/).length], the word count the card shows and the
    divisor of its percentage. *)
Definition libraryWordCount (book : Book) : Z :=
  Z.of_nat (length (split_ws (content book))).

(** ** The application shell: [App] *)

(** [a === b] on strings. *)
Fixpoint jsstring_eqb (a b : jsstring) : bool :=
  match a, b with
  | [], [] => true
  | x :: a', y :: b' => (x =? y)%N && jsstring_eqb a' b'
  | _, _ => false
  end.

Inductive ThemeType := dark | sepia | light | amoled.
Inductive FontType := jetbrains | inter | serif.
Inductive FontSize := small | medium | large | extra_large.

Module Settings.

(** [UserSettings] of [types.ts]. *)
Record UserSettings := mk {
  wpm : Z;
  fontSize : FontSize;
  fontFamily : FontType;
  theme : ThemeType
}.

(** [Partial<UserSettings>]: each key present or absent. *)
Record Partial := mkPartial {
  new_wpm : option Z;
  new_fontSize : option FontSize;
  new_fontFamily : option FontType;
  new_theme : option ThemeType
}.

Definition DEFAULT_SETTINGS : UserSettings := mk 350 medium jetbrains dark.

Definition pick {A : Type} (new : option A) (old : A) : A :=
  match new with Some v => v | None => old end.

(** [{ ...prev, ...newSettings }] *)
Definition spread (prev : UserSettings) (newSettings : Partial) : UserSettings :=
  mk (pick (new_wpm newSettings) (wpm prev))
     (pick (new_fontSize newSettings) (fontSize prev))
     (pick (new_fontFamily newSettings) (fontFamily prev))
     (pick (new_theme newSettings) (theme prev)).

(** The patch the speed slider sends: [{ wpm: parseInt(e.target.value) }]. *)
Definition sliderPatch (value : Z) : Partial :=
  mkPartial (Some value) None None None.

End Settings.

Inductive View := library | reader.

(** The state of [App]: [books], [view], [activeBook], [settings]. *)
Record AppState := mkApp {
  books : list Book;
  view : View;
  activeBook : option Book;
  settings : Settings.UserSettings
}.

(** [handleAddBook]; the random id and [Date.now()] are taken as given. *)
Definition handleAddBook (newId : jsstring) (addedNow : Z)
           (newTitle newContent : jsstring) (app : AppState) : AppState :=
  let newBook := mkBook newId newTitle newContent 0 addedNow in
  mkApp (newBook :: books app) (view app) (activeBook app) (settings app).

(** [handleDeleteBook]: [activeBook?.id === id] clears the active book. *)
Definition handleDeleteBook (i : jsstring) (app : AppState) : AppState :=
  mkApp (filter (fun b => negb (jsstring_eqb (id b) i)) (books app))
        (view app)
        (match activeBook app with
         | Some b => if jsstring_eqb (id b) i then None else Some b
         | None => None
         end)
        (settings app).

Definition handleSelectBook (book : Book) (app : AppState) : AppState :=
  mkApp (books app) reader (Some book) (settings app).

(** [{ ...b, lastPosition: pos }] *)
Definition withPosition (pos : Z) (b : Book) : Book :=
  mkBook (id b) (title b) (content b) pos (addedAt b).

Definition updateBookPosition (i : jsstring) (pos : Z) (app : AppState)
  : AppState :=
  mkApp (map (fun b => if jsstring_eqb (id b) i then withPosition pos b else b)
             (books app))
        (view app) (activeBook app) (settings app).

Definition updateSettings (newSettings : Settings.Partial) (app : AppState)
  : AppState :=
  mkApp (books app) (view app) (activeBook app)
        (Settings.spread (settings app) newSettings).

(** [setView('library')]: the Library tab, and the reader's [onClose]. *)
Definition showLibrary (app : AppState) : AppState :=
  mkApp (books app) library (activeBook app) (settings app).

(** [setView('reader')]: the Resume Reading tab. *)
Definition resumeReading (app : AppState) : AppState :=
  mkApp (books app) reader (activeBook app) (settings app).

(** A click on the [n]-th card of the library: [onSelect(book)] with the book
    as it is in [books]. *)
Definition selectCard (n : nat) (app : AppState) : AppState :=
  match nth_error (books app) n with
  | Some book => handleSelectBook book app
  | None => app
  end.

(** The reader that [App] renders: mounted for [activeBook] with the current
    settings when the view is the reader. *)
Definition readerOf (now : Z) (app : AppState) : option Session :=
  match view app, activeBook app with
  | reader, Some book =>
      Some (openBook now book (Settings.wpm (settings app)))
  | _, _ => None
  end.

(** *** The shell with its mounted reader *)

(** [App] together with the [Reader] it has mounted, if any.  The reader is
    mounted by the render that first shows it and lives, with its own state,
    until the view leaves it. *)
Record Screen := mkScreen {
  shell : AppState;
  mounted : option Session
}.

(** The reader's position effect, [onUpdatePosition(book.id, index)], with
    [book] the [activeBook] prop: it runs after the mount and after every
    render in which [index] changed. *)
Definition reportPosition (scr : Screen) : Screen :=
  match mounted scr, activeBook (shell scr) with
  | Some s, Some book =>
      mkScreen (updateBookPosition (id book) (index s) (shell scr))
               (mounted scr)
  | _, _ => scr
  end.

(** A render that shows the reader where none was mounted: the mount for
    [activeBook] with the current settings, then its effects. *)
Definition mountReader (now : Z) (app : AppState) : Screen :=
  match activeBook app with
  | Some book =>
      reportPosition
        (mkScreen app
                  (Some (openBook now book (Settings.wpm (settings app)))))
  | None => mkScreen app None
  end.

(** A click on the [n]-th card; cards are shown in the library view only. *)
Definition openCard (now : Z) (n : nat) (scr : Screen) : Screen :=
  match view (shell scr), nth_error (books (shell scr)) n with
  | library, Some book => mountReader now (handleSelectBook book (shell scr))
  | _, _ => scr
  end.

(** The Resume Reading tab, [setView('reader')]: nothing changes when the
    reader is already shown; from the library the reader is mounted anew. *)
Definition pressResume (now : Z) (scr : Screen) : Screen :=
  match view (shell scr) with
  | reader => scr
  | library => mountReader now (resumeReading (shell scr))
  end.

(** The Library tab and the reader's [onClose], [setView('library')]: the
    reader unmounts. *)
Definition pressLibrary (scr : Screen) : Screen :=
  mkScreen (showLibrary (shell scr)) None.

(** An event in the mounted reader, followed by its position effect; the
    speed slider reaches the reader through [onUpdateSettings]. *)
Definition inReader (e : event) (scr : Screen) : Screen :=
  match mounted scr with
  | Some s =>
      let app := match e with
                 | SetRate w =>
                     updateSettings (Settings.sliderPatch w) (shell scr)
                 | _ => shell scr
                 end in
      reportPosition (mkScreen app (Some (step e s)))
  | None => scr
  end.

Inductive screenEvent :=
| InReader (e : event)
| PressLibrary
| PressResume (now : Z).

Definition screenStep (scr : Screen) (ev : screenEvent) : Screen :=
  match ev with
  | InReader e => inReader e scr
  | PressLibrary => pressLibrary scr
  | PressResume now => pressResume now scr
  end.

(** A library of two books, nothing selected. *)
Definition sampleApp : AppState :=
  mkApp [fiveWords; blankBook] library None Settings.DEFAULT_SETTINGS.

(** ** The library: importing books *)

(** [[^/.]]: any unit but a slash and a dot. *)
Definition ext_unit (u : char16) : bool := negb ((u =? 47) || (u =? 46))%N.

(** [/\.[^/.]+$/] matched at the start of [s]: a dot, one or more units that
    are neither slash nor dot, then the end of the string. *)
Definition extension_here (s : jsstring) : bool :=
  match s with
  | c :: rest => (c =? 46)%N && nonempty rest && forallb ext_unit rest
  | [] => false
  end.

(** [file.name.replace(/\.[^/.]+$/, "")], the title of an uploaded text file:
    the leftmost match is removed. *)
Fixpoint stripExtension (name : jsstring) : jsstring :=
  match name with
  | [] => []
  | c :: rest => if extension_here name then [] else c :: stripExtension rest
  end.

(** The import form of [Library]: [isAdding], [newTitle], [newContent]. *)
Record ImportForm := mkForm {
  isAdding : bool;
  newTitle : jsstring;
  newContent : jsstring
}.

(** [handleManualAdd]: with a title and a content ([''] is falsy) the book is
    handed to [onAdd], the fields are cleared and the form closes. *)
Definition handleManualAdd (form : ImportForm)
  : option (jsstring * jsstring) * ImportForm :=
  if nonempty (newTitle form) && nonempty (newContent form)
  then (Some (newTitle form, newContent form), mkForm false [] [])
  else (None, form).

(** ** The EPUB service: paths inside the archive *)

(** [s.lastIndexOf(c)] for a one-unit [c], counting from [pos]; [-1] when [c]
    does not occur. *)
Fixpoint lastIndexOf_from (pos : Z) (c : char16) (s : jsstring) : Z :=
  match s with
  | [] => -1
  | x :: rest =>
      let later := lastIndexOf_from (pos + 1) c rest in
      if later =? -1 then (if (x =? c)%N then pos else -1) else later
  end.

Definition lastIndexOf (s : jsstring) (c : char16) : Z :=
  lastIndexOf_from 0 c s.

(** [opfPath.substring(0, opfPath.lastIndexOf('/'))] *)
Definition opfDir (opfPath : jsstring) : jsstring :=
  substring opfPath 0 (lastIndexOf opfPath 47%N).

(** [opfDir ? `${opfDir}/${href}` : href] *)
Definition itemPath (opfPath href : jsstring) : jsstring :=
  match opfDir opfPath with
  | [] => href
  | dir => dir ++ lit "/" ++ href
  end.

(** ** The Gutenberg explorer: [handleDownload] *)

(** [a || b] on strings that may be [undefined]: the empty string is falsy. *)
Definition str_or (a b : option jsstring) : option jsstring :=
  match a with
  | Some (_ :: _) => a
  | _ => b
  end.

(** [if (url)] *)
Definition truthy (url : option jsstring) : bool :=
  match url with
  | Some (_ :: _) => true
  | _ => false
  end.

(** [GutenbergBook]; [formats] is looked up by MIME type. *)
Record GutenbergBook := mkGutenberg {
  gid : Z;
  gtitle : jsstring;
  formats : jsstring -> option jsstring;
  download_count : Z
}.

(** What [fetch] resolves to; [body] stands for both [blob()] and [text()],
    [None] when reading it rejects. *)
Record Response := mkResponse {
  ok : bool;
  status : Z;
  body : option jsstring
}.

(** What the [catch] block receives. *)
Inductive DownloadError :=
| HttpError (code : Z)
| FetchRejected
| ReadRejected
| ExtractFailed.

Inductive Alert :=
| NoCompatibleFormat
| FailedToAdd (e : DownloadError).

(** What a run of [handleDownload] does: the call of [onAddBook], whether
    [onClose] was called, the [alert] shown, and [downloadingId] at the end. *)
Record DownloadOutcome := mkOutcome {
  added : option (jsstring * jsstring);
  closed : bool;
  alerted : option Alert;
  downloadingId : option Z
}.

Section Download.

(** The environment: the URL encoder, the network and the EPUB extractor,
    each of which may fail ([None]: the promise rejects). *)
Variable encodeURIComponent : jsstring -> jsstring.
Variable fetch : jsstring -> option Response.
Variable extractTextFromEpub : jsstring -> option (jsstring * jsstring).

Definition getProxiedUrl (url : jsstring) : jsstring :=
  lit "https://corsproxy.io/?" ++ encodeURIComponent url.

Definition epubUrlOf (book : GutenbergBook) : option jsstring :=
  str_or (formats book (lit "application/epub+zip"))
         (formats book (lit "application/x-mobipocket-ebook")).

Definition textUrlOf (book : GutenbergBook) : option jsstring :=
  str_or (formats book (lit "text/plain; charset=us-ascii"))
         (formats book (lit "text/plain")).

(** [fetch] of the proxied URL followed by the [response.ok] test. *)
Definition download (url : jsstring) : DownloadError + jsstring :=
  match fetch (getProxiedUrl url) with
  | None => inl FetchRejected
  | Some response =>
      if ok response
      then match body response with
           | Some data => inr data
           | None => inl ReadRejected
           end
      else inl (HttpError (status response))
  end.

(** The [try] block: the book to add, or nothing to add ([inl None], the
    early [return]), or the error thrown. *)
Definition tryDownload (book : GutenbergBook)
  : option DownloadError + (jsstring * jsstring) :=
  match epubUrlOf book, textUrlOf book with
  | Some (c :: u), _ =>
      match download (c :: u) with
      | inl e => inl (Some e)
      | inr blob =>
          match extractTextFromEpub blob with
          | None => inl (Some ExtractFailed)
          | Some (t, text) =>
              inr (match t with [] => gtitle book | _ => t end, text)
          end
      end
  | _, Some (c :: u) =>
      match download (c :: u) with
      | inl e => inl (Some e)
      | inr text => inr (gtitle book, text)
      end
  | _, _ => inl None
  end.

(** [handleDownload]: [try], [catch], and [finally] resetting
    [downloadingId]. *)
Definition handleDownload (book : GutenbergBook) : DownloadOutcome :=
  match tryDownload book with
  | inr new => mkOutcome (Some new) true None None
  | inl None => mkOutcome None false (Some NoCompatibleFormat) None
  | inl (Some e) => mkOutcome None false (Some (FailedToAdd e)) None
  end.

End Download.

(** A catalogue entry with an EPUB link and a plain-text link, and a network
    on which every request is answered 404. *)
Definition sampleGutenberg : GutenbergBook :=
  mkGutenberg 84 (lit "Frankenstein")
    (fun mime =>
       if jsstring_eqb mime (lit "application/epub+zip")
       then Some (lit "https://www.gutenberg.org/ebooks/84.epub3.images")
       else if jsstring_eqb mime (lit "text/plain")
       then Some (lit "https://www.gutenberg.org/ebooks/84.txt.utf-8")
       else None)
    120000.

Definition notFound (url : jsstring) : option Response :=
  Some (mkResponse false 404 None).

(** * Properties *)

(** ** Tokenizer *)

Lemma Tokens_ws_cons c s ts :
  is_ws c = true -> Tokens s ts -> Tokens (c :: s) ts.
Proof.
  intros Hc H. destruct H as [s Hs | gap w rest ts Hgap Hw Hclean Hrest Hts].
  - apply Tokens_blank. simpl. now rewrite Hc.
  - change (c :: gap ++ w ++ rest) with ((c :: gap) ++ w ++ rest).
    apply Tokens_word; trivial. simpl. now rewrite Hc.
Qed.

Lemma Tokens_piece cur s ts :
  forallb (fun c => negb (is_ws c)) cur = true ->
  match s with [] => True | c :: _ => is_ws c = true end ->
  Tokens s ts ->
  Tokens (rev cur ++ s) (if nonempty (rev cur) then rev cur :: ts else ts).
Proof.
  intros Hcur Hs Hts. destruct cur as [|c cur].
  - exact Hts.
  - assert (Hne : rev (c :: cur) <> []).
    { simpl. destruct (rev cur); discriminate. }
    assert (Hlen : nonempty (rev (c :: cur)) = true).
    { unfold nonempty, jslength. rewrite length_rev. simpl length.
      apply Z.ltb_lt. lia. }
    rewrite Hlen.
    apply (Tokens_word [] (rev (c :: cur)) s ts); trivial.
    rewrite forallb_forall in *. intros x Hx. apply Hcur.
    now apply in_rev.
Qed.

(** The scanner, started anywhere, yields the words of the piece in progress
    followed by the rest of the text. *)
Lemma split_from_Tokens s :
  forall g cur,
    forallb (fun c => negb (is_ws c)) cur = true ->
    (g = true -> cur = []) ->
    Tokens (rev cur ++ s) (filter nonempty (split_from g cur s)).
Proof.
  induction s as [|c rest IH]; intros g cur Hcur Hg.
  - simpl split_from. simpl filter.
    replace (rev cur ++ []) with (rev cur ++ @nil char16) by reflexivity.
    assert (H := Tokens_piece cur [] [] Hcur I (Tokens_blank [] eq_refl)).
    destruct (nonempty (rev cur)); exact H.
  - simpl split_from. destruct (is_ws c) eqn:Hc.
    + destruct g.
      * rewrite (Hg eq_refl). simpl rev. simpl app.
        apply Tokens_ws_cons; trivial.
        apply (IH true []); trivial.
      * simpl filter.
        assert (Hrest : Tokens (c :: rest)
                          (filter nonempty (split_from true [] rest))).
        { apply Tokens_ws_cons; trivial. apply (IH true []); trivial. }
        assert (H := Tokens_piece cur (c :: rest) _ Hcur Hc Hrest).
        destruct (nonempty (rev cur)); exact H.
    + replace (rev cur ++ c :: rest) with (rev (c :: cur) ++ rest)
        by (simpl; now rewrite <- app_assoc).
      apply IH.
      * simpl. now rewrite Hc, Hcur.
      * discriminate.
Qed.

Lemma tokenize_Tokens s : Tokens s (tokenize s).
Proof. apply (split_from_Tokens s false []); [reflexivity | discriminate]. Qed.

(** A maximal run is determined by the text: two ways of cutting a prefix of
    units satisfying [p], each followed by the end or by a unit that does not,
    agree. *)
Lemma run_unique (p : char16 -> bool) :
  forall l1 l2 r1 r2,
    forallb p l1 = true -> forallb p l2 = true ->
    match r1 with [] => True | c :: _ => p c = false end ->
    match r2 with [] => True | c :: _ => p c = false end ->
    l1 ++ r1 = l2 ++ r2 -> l1 = l2 /\ r1 = r2.
Proof.
  induction l1 as [|a l1 IH]; intros l2 r1 r2 H1 H2 Hr1 Hr2 E.
  - destruct l2 as [|b l2]; [now split|].
    simpl in E, H2. subst r1. apply andb_prop in H2. destruct H2 as [Hb _].
    congruence.
  - destruct l2 as [|b l2].
    + simpl in E, H1. subst r2. apply andb_prop in H1. destruct H1 as [Ha _].
      congruence.
    + simpl in *. injection E as -> E.
      apply andb_prop in H1. apply andb_prop in H2.
      destruct (IH l2 r1 r2) as [-> ->]; tauto.
Qed.

Lemma Tokens_functional s ts1 :
  Tokens s ts1 -> forall ts2, Tokens s ts2 -> ts1 = ts2.
Proof.
  induction 1 as [s Hs | gap w rest ts Hgap Hw Hclean Hrest Hts IH];
    intros ts2 H2.
  - inversion H2 as [| gap w rest ts Hgap Hw Hclean Hrest Hts E]; trivial.
    subst. rewrite !forallb_app in Hs.
    destruct w as [|c w]; [congruence|]. simpl in Hs, Hclean.
    destruct (is_ws c); simpl in *; rewrite ?andb_false_r in *; discriminate.
  - inversion H2 as [s' Hs | gap' w' rest' ts' Hgap' Hw' Hclean' Hrest' Hts' E].
    + subst. rewrite !forallb_app in Hs.
      destruct w as [|c w]; [congruence|]. simpl in Hs, Hclean.
      destruct (is_ws c); simpl in *; rewrite ?andb_false_r in *;
        discriminate.
    + subst.
      assert (Hhead : forall (v : jsstring) r, v <> [] ->
                forallb (fun c => negb (is_ws c)) v = true ->
                match v ++ r with [] => True | c :: _ => is_ws c = false end).
      { intros [|c v] r Hv Hc; [congruence|]. simpl in *.
        apply andb_prop in Hc. now destruct (is_ws c). }
      assert (Hgaps : gap' = gap /\ w' ++ rest' = w ++ rest)
        by (apply (run_unique is_ws); trivial;
            [apply (Hhead w' rest') | apply (Hhead w rest)]; trivial).
      destruct Hgaps as [-> E1].
      assert (Htail : forall r : jsstring,
                match r with [] => True | c :: _ => is_ws c = true end ->
                match r with [] => True
                           | c :: _ => negb (is_ws c) = false end).
      { intros [|c r]; trivial. intros ->. reflexivity. }
      assert (Hwords : w' = w /\ rest' = rest)
        by (apply (run_unique (fun c => negb (is_ws c))); trivial;
            [apply (Htail rest') | apply (Htail rest)]; trivial).
      destruct Hwords as [-> ->].
      f_equal. now apply IH.
Qed.

Lemma Tokens_clean s ts :
  Tokens s ts ->
  Forall (fun w => w <> [] /\ existsb is_ws w = false) ts.
Proof.
  induction 1 as [s Hs | gap w rest ts Hgap Hw Hclean Hrest Hts IH];
    constructor; trivial.
  split; trivial. clear - Hclean.
  induction w as [|c w IHw]; trivial. simpl in *.
  apply andb_prop in Hclean. destruct Hclean as [Hc Hw].
  destruct (is_ws c); [discriminate|]. now apply IHw.
Qed.

Lemma Tokens_concat s ts :
  Tokens s ts -> concat ts = filter not_ws s.
Proof.
  assert (Hblank : forall g, forallb is_ws g = true -> filter not_ws g = []).
  { induction g as [|c g IHg]; trivial. simpl. intros H.
    apply andb_prop in H. destruct H as [Hc Hg]. unfold not_ws at 1.
    rewrite Hc. now apply IHg. }
  assert (Hword : forall w, forallb (fun c => negb (is_ws c)) w = true ->
                            filter not_ws w = w).
  { induction w as [|c w IHw]; trivial. simpl. intros H.
    apply andb_prop in H. destruct H as [Hc Hw]. unfold not_ws at 1.
    rewrite Hc. f_equal. now apply IHw. }
  induction 1 as [s Hs | gap w rest ts Hgap Hw Hclean Hrest Hts IH].
  - simpl. symmetry. now apply Hblank.
  - simpl. rewrite !filter_app, Hblank, Hword, IH; trivial.
Qed.

(** C7: [tokenize] splits on runs of one or more whitespace units, drops the
    empty pieces and keeps the words in their order of appearance: its output
    is the one sequence of words that [Tokens] allows, its concatenation is
    the text without whitespace, no token is empty, whitespace-only, or
    contains whitespace at all; the empty text has no tokens, and
    ["  a   b  "] has the tokens ["a"] and ["b"]. *)
Theorem tokenize_splits_on_whitespace_runs :
  (forall text,
      Tokens text (tokenize text)
      /\ (forall ts, Tokens text ts -> ts = tokenize text)
      /\ concat (tokenize text) = filter not_ws text
      /\ Forall (fun w => w <> [] /\ forallb is_ws w = false
                          /\ existsb is_ws w = false) (tokenize text))
  /\ tokenize (lit "") = []
  /\ tokenize (lit "  a   b  ") = [lit "a"; lit "b"].
Proof.
  split; [|split; reflexivity].
  intros text. assert (H := tokenize_Tokens text).
  repeat split; trivial.
  - intros ts Hts. exact (Tokens_functional _ _ Hts _ H).
  - now apply Tokens_concat.
  - apply Tokens_clean in H. rewrite Forall_forall in *.
    intros w Hw. destruct (H w Hw) as [Hne Hclean].
    repeat split; trivial.
    destruct w as [|c w]; [congruence|]. simpl in *.
    apply orb_false_elim in Hclean. destruct Hclean as [-> _]. reflexivity.
Qed.

(** ** ORP calculator *)

Lemma orpIndex_table L :
  1 <= L -> orpIndex L = pivot_table L /\ 0 <= orpIndex L < L.
Proof.
  intros HL. unfold orpIndex, pivot_table.
  destruct (L =? 1) eqn:E1; [apply Z.eqb_eq in E1; subst; simpl; lia|].
  apply Z.eqb_neq in E1.
  destruct (L <=? 1) eqn:E2; [apply Z.leb_le in E2; lia|].
  destruct (2 <=? L) eqn:E3; [|apply Z.leb_gt in E3; lia].
  destruct (L <=? 5) eqn:E5; simpl; [apply Z.leb_le in E5; lia|].
  apply Z.leb_gt in E5.
  destruct (6 <=? L) eqn:E6; [|apply Z.leb_gt in E6; lia].
  destruct (L <=? 9) eqn:E9; simpl; [apply Z.leb_le in E9; lia|].
  apply Z.leb_gt in E9.
  destruct (10 <=? L) eqn:E10; [|apply Z.leb_gt in E10; lia].
  destruct (L <=? 13) eqn:E13; simpl; [apply Z.leb_le in E13; lia|].
  apply Z.leb_gt in E13. lia.
Qed.

Section Cut.

Variable word : jsstring.
Variable i : Z.
Hypothesis in_range : 0 <= i < jslength word.

Lemma substring_before : substring word 0 i = firstn (Z.to_nat i) word.
Proof.
  unfold substring.
  replace (Z.min (Z.max 0 0) (jslength word)) with 0 by lia.
  replace (Z.min (Z.max i 0) (jslength word)) with i by lia.
  replace (Z.min 0 i) with 0 by lia.
  replace (Z.max 0 i - 0) with i by lia.
  reflexivity.
Qed.

Lemma substring_after :
  substring_from word (i + 1) = skipn (Z.to_nat (i + 1)) word.
Proof.
  unfold substring_from, substring.
  replace (Z.min (Z.max (i + 1) 0) (jslength word)) with (i + 1) by lia.
  replace (Z.min (Z.max (jslength word) 0) (jslength word))
    with (jslength word) by lia.
  replace (Z.min (i + 1) (jslength word)) with (i + 1) by lia.
  replace (Z.max (i + 1) (jslength word)) with (jslength word) by lia.
  apply firstn_all2. rewrite length_skipn. unfold jslength in *. lia.
Qed.

Lemma charAt_unit :
  exists c, nth_error word (Z.to_nat i) = Some c /\ charAt word i = [c].
Proof.
  unfold charAt.
  replace ((0 <=? i) && (i <? jslength word)) with true
    by (symmetry; apply andb_true_intro; split;
        [apply Z.leb_le | apply Z.ltb_lt]; lia).
  destruct (nth_error word (Z.to_nat i)) as [c|] eqn:E.
  - now exists c.
  - apply nth_error_None in E. unfold jslength in in_range. lia.
Qed.

Lemma cut_rejoins :
  substring word 0 i ++ charAt word i ++ substring_from word (i + 1) = word.
Proof.
  destruct charAt_unit as [c [Hc ->]].
  rewrite substring_before, substring_after.
  replace (Z.to_nat (i + 1)) with (S (Z.to_nat i)) by lia.
  rewrite <- (firstn_skipn (Z.to_nat i) word) at 3.
  f_equal. simpl.
  clear in_range. revert Hc. generalize (Z.to_nat i) as n.
  induction word as [|a l IH]; intros [|n] H; simpl in *;
    try discriminate.
  - now injection H as ->.
  - now apply IH.
Qed.

End Cut.

Lemma getSpritzWord_cut word :
  word <> [] ->
  getSpritzWord word =
    let i := orpIndex (jslength word) in
    mkSpritz (substring word 0 i) (charAt word i) (substring_from word (i + 1)).
Proof. destruct word; [congruence | reflexivity]. Qed.

Lemma jslength_pos (word : jsstring) : word <> [] -> 1 <= jslength word.
Proof. destruct word; [congruence|]. unfold jslength. simpl length. lia. Qed.

(** C5: the triple of a non-empty token concatenates back to the token. *)
Theorem getSpritzWord_rejoins (t : jsstring) :
  t <> [] ->
  prefix (getSpritzWord t) ++ orp (getSpritzWord t) ++ suffix (getSpritzWord t)
  = t.
Proof.
  intros Hne. rewrite getSpritzWord_cut by trivial. simpl.
  apply cut_rejoins. apply orpIndex_table. now apply jslength_pos.
Qed.

Lemma getSpritzWord_rejoins_witness :
  lit "alphabet" <> []
  /\ prefix (getSpritzWord (lit "alphabet"))
       ++ orp (getSpritzWord (lit "alphabet"))
       ++ suffix (getSpritzWord (lit "alphabet"))
     = lit "alphabet".
Proof.
  split; [discriminate|]. apply (getSpritzWord_rejoins (lit "alphabet")).
  discriminate.
Defined.

(** C6: the pivot index of a non-empty token depends only on its length [L],
    by the table 1 -> 0, 2..5 -> 1, 6..9 -> 2, 10..13 -> 3, 14.. -> 4; the
    prefix is the units before that index, the pivot the single unit at it and
    the suffix the units after it. *)
Theorem getSpritzWord_pivot_table (t : jsstring) :
  t <> [] ->
  let L := jslength t in
  let i := orpIndex L in
  i = pivot_table L
  /\ (L = 1 -> i = 0)
  /\ (2 <= L <= 5 -> i = 1)
  /\ (6 <= L <= 9 -> i = 2)
  /\ (10 <= L <= 13 -> i = 3)
  /\ (14 <= L -> i = 4)
  /\ 0 <= i < L
  /\ exists c,
       nth_error t (Z.to_nat i) = Some c
       /\ getSpritzWord t =
            mkSpritz (firstn (Z.to_nat i) t) [c] (skipn (Z.to_nat i + 1) t).
Proof.
  intros Hne L i. assert (HL := jslength_pos t Hne). fold L in HL.
  destruct (orpIndex_table L HL) as [Htab Hrange]. fold i in Htab, Hrange.
  destruct (charAt_unit t i Hrange) as [c [Hc Hat]].
  assert (Hcut : getSpritzWord t =
            mkSpritz (firstn (Z.to_nat i) t) [c] (skipn (Z.to_nat i + 1) t)).
  { rewrite getSpritzWord_cut by trivial. fold L. fold i. cbv zeta.
    rewrite substring_before, substring_after, Hat by trivial.
    do 2 f_equal. lia. }
  clearbody i L. rewrite Htab in *. clear Htab.
  split; [reflexivity|].
  assert (Htable : (L = 1 -> pivot_table L = 0)
                   /\ (2 <= L <= 5 -> pivot_table L = 1)
                   /\ (6 <= L <= 9 -> pivot_table L = 2)
                   /\ (10 <= L <= 13 -> pivot_table L = 3)
                   /\ (14 <= L -> pivot_table L = 4)).
  { unfold pivot_table.
    destruct (L <=? 1) eqn:E1; [apply Z.leb_le in E1; lia|].
    destruct (L <=? 5) eqn:E5; [apply Z.leb_le in E5; lia|].
    destruct (L <=? 9) eqn:E9; [apply Z.leb_le in E9; lia|].
    destruct (L <=? 13) eqn:E13; [apply Z.leb_le in E13; lia|].
    apply Z.leb_gt in E1, E5, E9, E13. lia. }
  destruct Htable as (T1 & T2 & T3 & T4 & T5).
  repeat (apply conj; [assumption|]).
  exists c. now split.
Qed.

Lemma getSpritzWord_pivot_table_witness :
  lit "wonderland" <> []
  /\ orpIndex (jslength (lit "wonderland"))
     = pivot_table (jslength (lit "wonderland")).
Proof.
  split; [discriminate|].
  exact (proj1 (getSpritzWord_pivot_table (lit "wonderland")
                  ltac:(discriminate))).
Defined.

(** The worked examples of the pivot table. *)
Example spritz_a :
  getSpritzWord (lit "a") = mkSpritz [] (lit "a") [].
Proof. reflexivity. Qed.

Example spritz_cat :
  getSpritzWord (lit "cat") = mkSpritz (lit "c") (lit "a") (lit "t").
Proof. reflexivity. Qed.

Example spritz_alphabet :
  getSpritzWord (lit "alphabet") = mkSpritz (lit "al") (lit "p") (lit "habet").
Proof. reflexivity. Qed.

Example spritz_wonderland :
  getSpritzWord (lit "wonderland")
  = mkSpritz (lit "won") (lit "d") (lit "erland").
Proof. reflexivity. Qed.

Example spritz_extraordinary :
  getSpritzWord (lit "extraordinary")
  = mkSpritz (lit "ext") (lit "r") (lit "aordinary").
Proof. reflexivity. Qed.

Example spritz_discombobulate :
  getSpritzWord (lit "discombobulate")
  = mkSpritz (lit "disc") (lit "o") (lit "mbobulate").
Proof. reflexivity. Qed.

(** ** Playback: what each operation leaves alone *)

Lemma clearRef_frame st :
  words (clearRef st) = words st /\ index (clearRef st) = index st
  /\ isPlaying (clearRef st) = isPlaying st /\ wpm (clearRef st) = wpm st
  /\ timeoutRef (clearRef st) = timeoutRef st
  /\ clock (clearRef st) = clock st /\ fresh (clearRef st) = fresh st.
Proof.
  unfold clearRef. destruct (timeoutRef st) as [i|] eqn:E.
  - destruct (i =? 0); simpl; rewrite ?E; repeat split.
  - repeat split. exact E.
Qed.

Lemma effectBody_frame st :
  words (effectBody st) = words st /\ index (effectBody st) = index st
  /\ isPlaying (effectBody st) = isPlaying st /\ wpm (effectBody st) = wpm st
  /\ clock (effectBody st) = clock st.
Proof.
  unfold effectBody. destruct (isPlaying st) eqn:E.
  - simpl. rewrite E. repeat split.
  - destruct (clearRef_frame st) as (? & ? & ? & ? & ? & ? & ?).
    repeat split; congruence.
Qed.

Lemma rerunEffect_frame st :
  words (rerunEffect st) = words st /\ index (rerunEffect st) = index st
  /\ isPlaying (rerunEffect st) = isPlaying st /\ wpm (rerunEffect st) = wpm st
  /\ clock (rerunEffect st) = clock st.
Proof.
  unfold rerunEffect, effectCleanup.
  destruct (effectBody_frame (clearRef st)) as (? & ? & ? & ? & ?).
  destruct (clearRef_frame st) as (? & ? & ? & ? & ? & ? & ?).
  repeat split; congruence.
Qed.

Lemma rerunEffect_words st : words (rerunEffect st) = words st.
Proof. apply rerunEffect_frame. Qed.

Lemma rerunEffect_index st : index (rerunEffect st) = index st.
Proof. apply rerunEffect_frame. Qed.

Lemma rerunEffect_isPlaying st : isPlaying (rerunEffect st) = isPlaying st.
Proof. apply rerunEffect_frame. Qed.

(** The two outcomes of the timer callback. *)
Lemma tick_at_end t st :
  isPlaying st = true -> wordCount st - 1 <= index st ->
  isPlaying (tick t st) = false /\ index (tick t st) = index st.
Proof.
  intros Hrun Hend. unfold tick.
  set (st1 := scheduleNext (closure_wpm t) st).
  assert (Hw : wordCount st1 = wordCount st) by reflexivity.
  assert (Hi : index st1 = index st) by reflexivity.
  assert (Hp : isPlaying st1 = true) by exact Hrun.
  rewrite Hw, Hi, Hp.
  replace (wordCount st - 1 <=? index st) with true
    by (symmetry; apply Z.leb_le; lia).
  rewrite rerunEffect_isPlaying, rerunEffect_index. split; reflexivity.
Qed.

Lemma tick_before_end t st :
  index st < wordCount st - 1 ->
  isPlaying (tick t st) = isPlaying st /\ index (tick t st) = index st + 1.
Proof.
  intros Hmore. unfold tick.
  set (st1 := scheduleNext (closure_wpm t) st).
  assert (Hw : wordCount st1 = wordCount st) by reflexivity.
  assert (Hi : index st1 = index st) by reflexivity.
  rewrite Hw, Hi.
  replace (wordCount st - 1 <=? index st) with false
    by (symmetry; apply Z.leb_gt; lia).
  split; reflexivity.
Qed.

(** C1: a tick that fires while Running pauses and keeps the cursor when
    [cursor >= length - 1] (no wrap-around past the last index), and otherwise
    moves the cursor one token on and stays Running; this for every token
    sequence, every cursor and whichever timer fired. *)
Theorem tick_advances_or_stops (t : Timer) (st : Session) :
  isPlaying st = true ->
  (wordCount st - 1 <= index st ->
   isPlaying (tick t st) = false /\ index (tick t st) = index st)
  /\ (index st < wordCount st - 1 ->
      isPlaying (tick t st) = true /\ index (tick t st) = index st + 1).
Proof.
  intros Hrun. split; intros H.
  - now apply tick_at_end.
  - destruct (tick_before_end t st H) as (Hp & Hi). split; congruence.
Qed.

Lemma tick_advances_or_stops_witness :
  let st := handleTogglePlay (openBook 0 fiveWords 300) in
  let t := mkTimer 1 200 300 in
  isPlaying st = true
  /\ isPlaying (tick t st) = true /\ index (tick t st) = index st + 1.
Proof.
  intros st t. split; [reflexivity|].
  apply (tick_advances_or_stops t st); [reflexivity | vm_compute; reflexivity].
Defined.

(** The timer that [fire] runs is the session's tick. *)
Lemma fire_is_tick st t :
  earliest (pending st) = Some t ->
  exists st', fire st = tick t st'
    /\ words st' = words st /\ index st' = index st
    /\ isPlaying st' = isPlaying st.
Proof.
  intros E. unfold fire. rewrite E. eexists. split; [reflexivity|].
  repeat split.
Qed.

(** C8: on a non-empty token sequence, in either playback state and from any
    cursor, [skip(delta)] sets the cursor to
    [clamp(cursor + delta, 0, length - 1)] and changes nothing else, the
    running flag included; the handler has no failure result, an out-of-range
    target just lands on the nearest bound. *)
Theorem handleSkip_clamps (amount : Z) (st : Session) :
  words st <> [] ->
  handleSkip amount st
  = set_index (clamp (index st + amount) 0 (wordCount st - 1)) st
  /\ index (handleSkip amount st)
     = clamp (index st + amount) 0 (wordCount st - 1)
  /\ 0 <= index (handleSkip amount st) <= wordCount st - 1
  /\ isPlaying (handleSkip amount st) = isPlaying st.
Proof.
  intros Hne.
  assert (Hlen : 1 <= wordCount st).
  { unfold wordCount. destruct (words st); [congruence|]. simpl length. lia. }
  assert (Hclamp : Z.max 0 (Z.min (wordCount st - 1) (index st + amount))
                   = clamp (index st + amount) 0 (wordCount st - 1)).
  { unfold clamp.
    destruct (Z.ltb_spec (index st + amount) 0);
      destruct (Z.ltb_spec (wordCount st - 1) (index st + amount)); lia. }
  unfold handleSkip. rewrite Hclamp. simpl.
  repeat apply conj; try reflexivity; rewrite <- Hclamp; lia.
Qed.

Lemma handleSkip_clamps_witness :
  let st := openBook 0 (fiveWordsAt 2) 300 in
  words st <> []
  /\ index (handleSkip (-100) st) = 0
  /\ index (handleSkip 100 st) = 4.
Proof.
  intros st. split; [discriminate|]. split.
  - exact (proj1 (proj2 (handleSkip_clamps (-100) st ltac:(discriminate)))).
  - exact (proj1 (proj2 (handleSkip_clamps 100 st ltac:(discriminate)))).
Defined.

(** C10: on an empty token sequence the upper bound [length - 1] is [-1], the
    outer [max] with 0 wins, and [skip(delta)] puts the cursor at 0 whatever
    the delta and the cursor were; so it changes nothing exactly when the
    cursor is 0 already. *)
Theorem handleSkip_empty (amount : Z) (st : Session) :
  words st = [] ->
  wordCount st - 1 = -1
  /\ index (handleSkip amount st) = 0
  /\ (handleSkip amount st = st <-> index st = 0).
Proof.
  intros Hempty.
  assert (Hlen : wordCount st - 1 = -1).
  { unfold wordCount. rewrite Hempty. reflexivity. }
  assert (Hzero : index (handleSkip amount st) = 0).
  { unfold handleSkip. rewrite Hlen. simpl. lia. }
  repeat apply conj; trivial.
  - intros E. rewrite E in Hzero. exact Hzero.
  - intros E. unfold handleSkip. rewrite Hlen.
    replace (Z.max 0 (Z.min (-1) (index st + amount))) with 0 by lia.
    destruct st; simpl in *. now subst.
Qed.

Lemma handleSkip_empty_witness :
  let st := openBook 0 (blankBookAt 7) 350 in
  words st = []
  /\ index (handleSkip 10 st) = 0
  /\ handleSkip 10 st <> st.
Proof.
  intros st.
  destruct (handleSkip_empty 10 st eq_refl) as (_ & Hzero & Hnoop).
  split; [reflexivity|]. split; [exact Hzero|].
  intros E. apply Hnoop in E. discriminate E.
Defined.

(** ** Playback: the single timer slot *)

Lemma without_self t : without (tid t) [t] = [].
Proof. unfold without. simpl. now rewrite Z.eqb_refl. Qed.

Lemma clearRef_disarms st : one_slot st -> pending (clearRef st) = [].
Proof.
  intros [Hnone | (t & Hone & Href & Hid)]; unfold clearRef.
  - destruct (timeoutRef st) as [i|]; [destruct (i =? 0)|]; simpl;
      rewrite ?Hnone; reflexivity.
  - rewrite Href. destruct (Z.eqb_spec (tid t) 0); [lia|].
    simpl. rewrite Hone. apply without_self.
Qed.

(** Running the effect again leaves exactly the timer of the current rate when
    playing, and none when paused. *)
Lemma rerunEffect_slot st :
  one_slot st ->
  pending (rerunEffect st)
  = (if isPlaying st
     then [mkTimer (fresh st) (clock st + tickDelay (wpm st)) (wpm st)]
     else [])
  /\ timeoutRef (rerunEffect st)
     = (if isPlaying st then Some (fresh st) else timeoutRef st)
  /\ fresh (rerunEffect st)
     = (if isPlaying st then fresh st + 1 else fresh st).
Proof.
  intros Hslot. assert (Hclear := clearRef_disarms st Hslot).
  destruct (clearRef_frame st) as (_ & _ & Hp & Hw & Hr & Hc & Hf).
  unfold rerunEffect, effectCleanup, effectBody. rewrite Hp.
  destruct (isPlaying st).
  - simpl. rewrite Hclear, Hw, Hc, Hf. repeat split.
  - assert (Hagain : pending (clearRef (clearRef st)) = [])
      by (apply clearRef_disarms; now left).
    destruct (clearRef_frame (clearRef st)) as (_ & _ & _ & _ & Hr' & _ & Hf').
    repeat split; congruence.
Qed.

Lemma rerunEffect_inv st :
  0 < fresh st -> one_slot st -> timer_inv (rerunEffect st).
Proof.
  intros Hfresh Hslot.
  destruct (rerunEffect_slot st Hslot) as (Hp & Hr & Hf).
  destruct (rerunEffect_frame st) as (_ & _ & Hplay & _).
  unfold timer_inv, one_slot. rewrite Hp, Hr, Hf, Hplay.
  destruct (isPlaying st).
  - repeat apply conj; [lia | discriminate |].
    right. eexists. repeat apply conj; try reflexivity; simpl; lia.
  - repeat apply conj; trivial. now left.
Qed.

Lemma earliest_single t : earliest [t] = Some t.
Proof. reflexivity. Qed.

Lemma tick_inv t st :
  0 < fresh st -> pending st = [] -> isPlaying st = true ->
  timer_inv (tick t st).
Proof.
  intros Hfresh Hnone Hrun. unfold tick.
  set (st1 := scheduleNext (closure_wpm t) st).
  assert (Hslot1 : one_slot st1).
  { right. unfold st1. simpl. rewrite Hnone. eexists.
    repeat apply conj; try reflexivity; simpl; lia. }
  assert (Hf1 : 0 < fresh st1) by (unfold st1; simpl; lia).
  destruct (wordCount st1 - 1 <=? index st1).
  - replace (isPlaying st1) with true by (symmetry; exact Hrun).
    now apply rerunEffect_inv.
  - unfold timer_inv. repeat apply conj; trivial.
    simpl. rewrite Hrun. discriminate.
Qed.

Lemma step_inv e st : timer_inv st -> timer_inv (step e st).
Proof.
  intros (Hfresh & Hpaused & Hslot). destruct e; simpl.
  - now apply rerunEffect_inv.
  - repeat apply conj; trivial.
  - unfold handleReset. destruct (isPlaying st) eqn:E.
    + now apply rerunEffect_inv.
    + repeat apply conj; simpl; auto.
  - unfold setRate. destruct (w =? wpm st).
    + repeat apply conj; trivial.
    + now apply rerunEffect_inv.
  - unfold fire. destruct (earliest (pending st)) as [t|] eqn:E.
    + destruct Hslot as [Hnone | (u & Hone & Href & Hid)].
      * rewrite Hnone in E. discriminate.
      * rewrite Hone in E. simpl in E. injection E as <-.
        apply tick_inv; simpl; trivial.
        -- rewrite Hone. apply without_self.
        -- destruct (isPlaying st); trivial.
           rewrite Hpaused in Hone; [discriminate | reflexivity].
    + repeat apply conj; trivial.
  - unfold idle.
    destruct ((0 <=? ms)
              && forallb (fun t => clock st + ms <=? due t) (pending st));
      repeat apply conj; trivial.
Qed.

Lemma openBook_inv now book w : timer_inv (openBook now book w).
Proof.
  unfold openBook, effectBody, clearRef. simpl.
  repeat apply conj; simpl; [lia | reflexivity | now left].
Qed.

Lemma reachable_inv now book w st :
  reachable now book w st -> timer_inv st.
Proof.
  induction 1 as [| e st _ IH]; [apply openBook_inv | now apply step_inv].
Qed.

(** The token sequence is fixed when the book is opened. *)
Lemma step_words e st : words (step e st) = words st.
Proof.
  destruct e; simpl.
  - unfold handleTogglePlay. now rewrite rerunEffect_words.
  - reflexivity.
  - unfold handleReset. destruct (isPlaying st); [|reflexivity].
    now rewrite rerunEffect_words.
  - unfold setRate. destruct (w =? wpm st); [reflexivity|].
    now rewrite rerunEffect_words.
  - unfold fire. destruct (earliest (pending st)) as [t|]; [|reflexivity].
    unfold tick. set (st1 := scheduleNext _ _).
    destruct (wordCount st1 - 1 <=? index st1); [|reflexivity].
    destruct (isPlaying st1); [|reflexivity].
    now rewrite rerunEffect_words.
  - unfold idle.
    destruct ((0 <=? ms)
              && forallb (fun t => clock st + ms <=? due t) (pending st));
      reflexivity.
Qed.

Lemma reachable_words now book w st :
  reachable now book w st -> words st = tokenize (content book).
Proof.
  induction 1 as [| e st _ IH]; [reflexivity|]. now rewrite step_words.
Qed.

(** A cursor that starts at or after 0 stays there. *)
Lemma step_index_nonneg e st : 0 <= index st -> 0 <= index (step e st).
Proof.
  intros Hi. destruct e; simpl.
  - unfold handleTogglePlay. now rewrite rerunEffect_index.
  - lia.
  - unfold handleReset. destruct (isPlaying st); [|simpl; lia].
    rewrite rerunEffect_index. simpl. lia.
  - unfold setRate. destruct (w =? wpm st); trivial.
    now rewrite rerunEffect_index.
  - unfold fire. destruct (earliest (pending st)) as [t|]; trivial.
    unfold tick. set (st1 := scheduleNext _ _).
    assert (Hi1 : index st1 = index st) by reflexivity.
    destruct (wordCount st1 - 1 <=? index st1); [|simpl; lia].
    destruct (isPlaying st1); [|simpl; lia].
    rewrite rerunEffect_index. simpl. lia.
  - unfold idle.
    destruct ((0 <=? ms)
              && forallb (fun t => clock st + ms <=? due t) (pending st));
      trivial.
Qed.

Lemma reachable_index_nonneg now book w st :
  0 <= lastPosition book -> reachable now book w st -> 0 <= index st.
Proof.
  intros Hpos. induction 1 as [| e st _ IH].
  - unfold openBook. destruct (effectBody_frame
      (mkSession (tokenize (content book)) (js_or (lastPosition book) 0)
                 false w None [] now 1)) as (_ & -> & _).
    simpl. unfold js_or. destruct (lastPosition book =? 0); lia.
  - now apply step_index_nonneg.
Qed.

(** ** Opening a book *)

(** C4, as the code has it: a book opens Paused with no timer armed, and the
    cursor is the persisted last position as stored ([|| 0] only replaces a
    zero by zero); nothing clamps it to the token sequence, so it is in range
    exactly when the persisted position is. *)
Theorem openBook_initial_state (now : Z) (book : Book) (w : Z) :
  let st := openBook now book w in
  isPlaying st = false
  /\ pending st = []
  /\ words st = tokenize (content book)
  /\ index st = js_or (lastPosition book) 0
  /\ index st = lastPosition book
  /\ (0 <= index st <= wordCount st - 1
      <-> 0 <= lastPosition book <= wordCount st - 1).
Proof.
  assert (H : index (openBook now book w) = lastPosition book).
  { unfold openBook, effectBody, clearRef, js_or. simpl.
    destruct (Z.eqb_spec (lastPosition book) 0); congruence. }
  cbv zeta. rewrite H. repeat apply conj; try reflexivity.
  - unfold js_or. destruct (Z.eqb_spec (lastPosition book) 0); congruence.
  - trivial.
  - trivial.
Qed.

(** C4, counterexample: a five-token book stored with last position 9 opens
    with the cursor at 9, outside [0, 4]. *)
Lemma openBook_keeps_stale_position :
  let st := openBook 0 (fiveWordsAt 9) 350 in
  wordCount st = 5
  /\ wordCount st <= lastPosition (fiveWordsAt 9)
  /\ index st = 9
  /\ ~ (0 <= index st <= wordCount st - 1).
Proof.
  cbv zeta. repeat apply conj; try reflexivity.
  - vm_compute. discriminate.
  - vm_compute. intros [_ H]. now apply H.
Qed.

(** ** Empty documents *)

(** C3, as the code has it: [togglePlay] has no guard for an empty token
    sequence.  From Paused it enters Running and arms one tick; that tick
    finds [cursor >= length - 1 = -1], so it pauses again, with the cursor
    where it was and no timer armed. *)
Theorem empty_document_runs_until_first_tick
        (now : Z) (book : Book) (w : Z) (st : Session) :
  tokenize (content book) = [] ->
  0 <= lastPosition book ->
  reachable now book w st ->
  isPlaying st = false ->
  let playing := handleTogglePlay st in
  isPlaying playing = true
  /\ pending playing
     = [mkTimer (fresh st) (clock st + tickDelay (wpm st)) (wpm st)]
  /\ isPlaying (fire playing) = false
  /\ index (fire playing) = index st
  /\ pending (fire playing) = [].
Proof.
  intros Hempty Hpos Hreach Hpaused playing.
  assert (Hwords := reachable_words _ _ _ _ Hreach). rewrite Hempty in Hwords.
  assert (Hindex := reachable_index_nonneg _ _ _ _ Hpos Hreach).
  destruct (reachable_inv _ _ _ _ Hreach) as (Hfresh & _ & Hslot).
  assert (Hplay : isPlaying playing = true).
  { unfold playing, handleTogglePlay. rewrite rerunEffect_isPlaying. simpl.
    now rewrite Hpaused. }
  assert (Harmed : pending playing
            = [mkTimer (fresh st) (clock st + tickDelay (wpm st)) (wpm st)]).
  { unfold playing, handleTogglePlay.
    destruct (rerunEffect_slot (set_isPlaying (negb (isPlaying st)) st) Hslot)
      as (-> & _).
    simpl. now rewrite Hpaused. }
  assert (Hinv : timer_inv (fire playing)).
  { apply (step_inv Fire). apply (step_inv TogglePlay).
    exact (reachable_inv _ _ _ _ Hreach). }
  destruct (fire_is_tick playing _ (f_equal earliest Harmed))
    as (st' & Hfire & Hw' & Hi' & Hp').
  assert (Hcount : wordCount st' - 1 <= index st').
  { unfold wordCount. rewrite Hw', Hi'. unfold playing, handleTogglePlay.
    rewrite rerunEffect_words, rerunEffect_index. simpl. rewrite Hwords.
    simpl. lia. }
  destruct (tick_at_end
              (mkTimer (fresh st) (clock st + tickDelay (wpm st)) (wpm st))
              st' (eq_trans Hp' Hplay) Hcount) as (Hoff & Hsame).
  rewrite <- Hfire in Hoff, Hsame.
  repeat apply conj; trivial.
  - rewrite Hsame, Hi'. unfold playing, handleTogglePlay.
    now rewrite rerunEffect_index.
  - destruct Hinv as (_ & Hnone & _). now apply Hnone.
Qed.

Lemma empty_document_runs_until_first_tick_witness :
  let st := openBook 0 blankBook 350 in
  tokenize (content blankBook) = []
  /\ 0 <= lastPosition blankBook
  /\ isPlaying st = false
  /\ isPlaying (handleTogglePlay st) = true
  /\ isPlaying (fire (handleTogglePlay st)) = false.
Proof.
  intros st.
  assert (Hpos : 0 <= lastPosition blankBook) by (simpl; lia).
  destruct (empty_document_runs_until_first_tick 0 blankBook 350 st
              eq_refl Hpos (reach_open 0 blankBook 350) eq_refl)
    as (Hon & _ & Hoff & _).
  repeat apply conj; trivial.
Defined.

(** C3, counterexample: a book whose text is one space has no tokens, and
    pressing play on it yields a reachable state that is Running. *)
Lemma empty_document_enters_running :
  words (openBook 0 blankBook 350) = []
  /\ isPlaying (handleTogglePlay (openBook 0 blankBook 350)) = true
  /\ ~ (forall st, reachable 0 blankBook 350 st -> isPlaying st = false).
Proof.
  repeat apply conj; try reflexivity.
  intros H.
  specialize (H _ (reach_step 0 blankBook 350 TogglePlay _
                     (reach_open 0 blankBook 350))).
  discriminate H.
Qed.

(** ** Changing the rate while playing *)

(** C2, counterexample: playing at 300 wpm, the tick armed at time 0 is due
    at 200.  A change to 100 wpm at time 50 replaces it by one due at 650:
    when the clock reaches the old boundary nothing has fired and the cursor
    is still 0, where without the change it would be 1.  (A change to 600 wpm
    makes the next tick due at 150 instead.) *)
Lemma rate_change_cancels_pending_tick :
  let st := idle 50 (handleTogglePlay (openBook 0 fiveWords 300)) in
  isPlaying st = true
  /\ pending st = [mkTimer 1 200 300]
  /\ pending (setRate 100 st) = [mkTimer 2 650 100]
  /\ pending (setRate 600 st) = [mkTimer 2 150 600]
  /\ ~ pending_tick_kept st 100
  /\ option_map index (advanceTo 5 200 st) = Some 1
  /\ option_map index (advanceTo 5 200 (setRate 100 st)) = Some 0.
Proof.
  cbv zeta. repeat apply conj; try reflexivity.
  intros H. specialize (H (mkTimer 1 200 300) (or_introl eq_refl)).
  vm_compute in H. destruct H as [H | []]. discriminate H.
Qed.

(** ** The progress indicator *)

(** C9, on the code: the reader's two ratios divide by [length - 1] and by
    [length] as they are.  A one-token book makes the bar's divisor zero and
    its width [NaN]; a book without tokens makes the percentage's divisor
    zero and the percentage [NaN]. *)
Theorem progress_divides_by_zero :
  (let st := openBook 0 oneWord 350 in
   wordCount st - 1 = 0 /\ progressWidth st = NaN)
  /\ (let st := openBook 0 blankBook 350 in
      wordCount st = 0 /\ progressPercent st = NaN).
Proof. repeat split. Qed.

(** Whenever the cursor is 0 on such a book the figure is [NaN]. *)
Lemma progressWidth_single st :
  wordCount st = 1 -> index st = 0 -> progressWidth st = NaN.
Proof. unfold progressWidth. now intros -> ->. Qed.

Lemma progressPercent_empty st :
  wordCount st = 0 -> index st = 0 -> progressPercent st = NaN.
Proof. unfold progressPercent. now intros -> ->. Qed.

(** The library card computes the same percentage with its divisor guarded by
    [|| 1]: it is never zero. *)
Lemma libraryPercent_guarded book :
  js_or (Z.of_nat (length (split_ws (content book)))) 1 <> 0.
Proof.
  unfold js_or.
  destruct (Z.eqb_spec (Z.of_nat (length (split_ws (content book)))) 0);
    [discriminate | assumption].
Qed.

(** * Further properties of the reader *)

(** ** The timer while playing *)

Lemma tickDelay_nonneg w : 0 <= tickDelay w.
Proof. unfold tickDelay. lia. Qed.

Lemma rerunEffect_ticking st :
  0 < fresh st -> one_slot st -> isPlaying st = true ->
  ticking (rerunEffect st) (clock st + tickDelay (wpm st)).
Proof.
  intros Hfresh Hslot Hrun.
  destruct (rerunEffect_slot st Hslot) as (Hp & Hr & Hf).
  destruct (rerunEffect_frame st) as (_ & _ & Hplay & Hw & Hc).
  rewrite Hrun in Hp, Hr, Hf.
  assert (Hd := tickDelay_nonneg (wpm st)).
  unfold ticking. rewrite Hplay, Hf, Hc, Hw, Hp, Hr.
  repeat apply conj; trivial; try lia.
  exists (fresh st). repeat apply conj; trivial. lia.
Qed.

Lemma fire_unarmed st : pending st = [] -> fire st = st.
Proof. intros H. unfold fire. now rewrite H. Qed.

(** A tick before the last token: the cursor moves on and the next tick is
    armed one interval after this one was due. *)
Lemma ticking_fire_more st d :
  ticking st d -> index st < wordCount st - 1 ->
  ticking (fire st) (d + tickDelay (wpm st))
  /\ index (fire st) = index st + 1
  /\ clock (fire st) = d
  /\ words (fire st) = words st
  /\ wpm (fire st) = wpm st.
Proof.
  intros (Hp & Hf & Hc & i & Hi & Hpend & Href) Hmore.
  assert (Hd := tickDelay_nonneg (wpm st)).
  unfold fire. rewrite Hpend. cbn [earliest tid due].
  unfold without. cbn [filter tid]. rewrite Z.eqb_refl. cbn [negb].
  unfold tick. cbn [closure_wpm].
  set (st0 := set_clock (Z.max (clock st) d) (set_pending [] st)).
  replace (wordCount (scheduleNext (wpm st) st0) - 1
           <=? index (scheduleNext (wpm st) st0)) with false
    by (symmetry; apply Z.leb_gt; exact Hmore).
  unfold ticking. simpl.
  replace (Z.max (clock st) d) with d by lia.
  repeat apply conj; trivial; try lia.
  exists (fresh st). repeat apply conj; trivial. lia.
Qed.

(** A tick at or after the last token: playback stops where it is and nothing
    stays armed. *)
Lemma ticking_fire_end st d :
  ticking st d -> wordCount st - 1 <= index st ->
  isPlaying (fire st) = false
  /\ index (fire st) = index st
  /\ pending (fire st) = []
  /\ clock (fire st) = d
  /\ words (fire st) = words st
  /\ wpm (fire st) = wpm st.
Proof.
  intros (Hp & Hf & Hc & i & Hi & Hpend & Href) Hend.
  unfold fire. rewrite Hpend. cbn [earliest tid due].
  unfold without. cbn [filter tid]. rewrite Z.eqb_refl. cbn [negb].
  unfold tick. cbn [closure_wpm].
  set (st0 := set_clock (Z.max (clock st) d) (set_pending [] st)).
  replace (wordCount (scheduleNext (wpm st) st0) - 1
           <=? index (scheduleNext (wpm st) st0)) with true
    by (symmetry; apply Z.leb_le; exact Hend).
  replace (isPlaying (scheduleNext (wpm st) st0)) with true
    by (symmetry; exact Hp).
  set (st2 := set_isPlaying false (scheduleNext (wpm st) st0)).
  assert (Hslot : one_slot st2).
  { right. eexists. repeat apply conj; try reflexivity; simpl; lia. }
  destruct (rerunEffect_slot st2 Hslot) as (Hpe & _).
  destruct (rerunEffect_frame st2) as (Hw & Hix & Hpl & Hwpm & Hck).
  rewrite Hpe, Hw, Hix, Hpl, Hwpm, Hck. simpl.
  repeat apply conj; trivial. lia.
Qed.

(** While playing, in every reachable state, exactly the tick of the current
    rate is armed, due now or later. *)
Lemma step_ticking e st :
  timer_inv st ->
  (isPlaying st = true -> exists d, ticking st d) ->
  isPlaying (step e st) = true -> exists d, ticking (step e st) d.
Proof.
  intros (Hfresh & Hpaused & Hslot) Hinv. destruct e; simpl.
  - unfold handleTogglePlay. rewrite rerunEffect_isPlaying. intros Hrun.
    eexists. apply rerunEffect_ticking; trivial.
  - intros Hrun. destruct (Hinv Hrun) as (d & Ht). exists d. exact Ht.
  - unfold handleReset. destruct (isPlaying st).
    + rewrite rerunEffect_isPlaying. discriminate.
    + discriminate.
  - unfold setRate. destruct (w =? wpm st); [exact Hinv|].
    rewrite rerunEffect_isPlaying. intros Hrun.
    eexists. apply rerunEffect_ticking; trivial.
  - destruct (isPlaying st) eqn:Hrun.
    + destruct (Hinv eq_refl) as (d & Ht). intros Hstill.
      destruct (Z.lt_ge_cases (index st) (wordCount st - 1)) as [Hmore | Hend].
      * eexists. apply (ticking_fire_more st d Ht Hmore).
      * destruct (ticking_fire_end st d Ht Hend) as (Hoff & _). congruence.
    + rewrite fire_unarmed by now apply Hpaused. congruence.
  - unfold idle.
    destruct ((0 <=? ms)
              && forallb (fun t => clock st + ms <=? due t) (pending st))
      eqn:Hguard; [|exact Hinv].
    simpl. intros Hrun. destruct (Hinv Hrun) as (d & Ht). exists d.
    destruct Ht as (Hp & Hf & Hc & i & Hi & Hpend & Href).
    apply andb_prop in Hguard. destruct Hguard as [_ Hdue].
    rewrite Hpend in Hdue. simpl in Hdue. rewrite andb_true_r in Hdue.
    apply Z.leb_le in Hdue.
    unfold ticking. simpl. repeat apply conj; trivial.
    exists i. repeat apply conj; trivial.
Qed.

Lemma reachable_ticking now book w st :
  reachable now book w st ->
  isPlaying st = true -> exists d, ticking st d.
Proof.
  induction 1 as [| e st Hreach IH].
  - unfold openBook, effectBody, clearRef. simpl. discriminate.
  - apply step_ticking; [exact (reachable_inv _ _ _ _ Hreach) | exact IH].
Qed.

(** X1: in every state a session can reach, a timer is armed exactly while
    playing: one while Running, none while Paused; the armed timer is the one
    [timeoutRef] names, it carries the current rate, and it is not overdue. *)
Theorem single_timer_slot (now : Z) (book : Book) (w : Z) (st : Session) :
  reachable now book w st ->
  (isPlaying st = false -> pending st = [])
  /\ (isPlaying st = true ->
      exists t, pending st = [t]
                /\ timeoutRef st = Some (tid t)
                /\ closure_wpm t = wpm st
                /\ clock st <= due t).
Proof.
  intros Hreach. split.
  - now destruct (reachable_inv _ _ _ _ Hreach) as (_ & H & _).
  - intros Hrun.
    destruct (reachable_ticking _ _ _ _ Hreach Hrun)
      as (d & _ & _ & Hc & i & _ & Hpend & Href).
    eexists. repeat apply conj; [exact Hpend | exact Href | reflexivity |].
    exact Hc.
Qed.

Lemma single_timer_slot_witness :
  let st := step Fire (step TogglePlay (openBook 0 fiveWords 300)) in
  isPlaying st = true
  /\ exists t, pending st = [t] /\ timeoutRef st = Some (tid t)
               /\ closure_wpm t = wpm st /\ clock st <= due t.
Proof.
  intros st. split; [reflexivity|].
  apply (single_timer_slot 0 fiveWords 300 st); [|reflexivity].
  apply reach_step. apply reach_step. apply reach_open.
Defined.

Lemma advanceTo_unarmed fuel target st :
  pending st = [] ->
  advanceTo fuel target st = Some (set_clock (Z.max (clock st) target) st).
Proof. intros H. destruct fuel; simpl; now rewrite H. Qed.

(** X2: pausing a playing session cancels the armed tick: the session is
    Paused with the cursor where it was and no timer armed, so however far
    the clock then runs no tick fires and the cursor does not move. *)
Theorem pause_cancels_tick (now : Z) (book : Book) (w : Z) (st : Session) :
  reachable now book w st ->
  isPlaying st = true ->
  let paused := handleTogglePlay st in
  isPlaying paused = false
  /\ index paused = index st
  /\ pending paused = []
  /\ fire paused = paused
  /\ forall fuel target,
       option_map index (advanceTo fuel target paused) = Some (index st)
       /\ option_map isPlaying (advanceTo fuel target paused) = Some false.
Proof.
  intros Hreach Hrun paused.
  destruct (reachable_inv _ _ _ _ Hreach) as (_ & _ & Hslot).
  assert (Hoff : isPlaying paused = false).
  { unfold paused, handleTogglePlay. rewrite rerunEffect_isPlaying. simpl.
    now rewrite Hrun. }
  assert (Hidx : index paused = index st).
  { unfold paused, handleTogglePlay. now rewrite rerunEffect_index. }
  assert (Hnone : pending paused = []).
  { unfold paused, handleTogglePlay.
    destruct (rerunEffect_slot (set_isPlaying (negb (isPlaying st)) st) Hslot)
      as (-> & _).
    simpl. now rewrite Hrun. }
  repeat apply conj; trivial.
  - now apply fire_unarmed.
  - intros fuel target. rewrite advanceTo_unarmed by trivial. simpl.
    now rewrite Hidx, Hoff.
Qed.

Lemma pause_cancels_tick_witness :
  let st := step Fire (step TogglePlay (openBook 0 fiveWords 300)) in
  isPlaying st = true
  /\ index st = 1
  /\ option_map index (advanceTo 0 100000 (handleTogglePlay st)) = Some 1.
Proof.
  intros st.
  assert (Hreach : reachable 0 fiveWords 300 st)
    by (apply reach_step; apply reach_step; apply reach_open).
  destruct (pause_cancels_tick 0 fiveWords 300 st Hreach eq_refl)
    as (_ & _ & _ & _ & Hquiet).
  split; [reflexivity|]. split; [reflexivity|].
  exact (proj1 (Hquiet 0%nat 100000)).
Defined.

(** X3: reset, in whatever state the session is, puts the cursor at 0 and
    pauses, keeps the tokens and the rate, and leaves no timer armed: the
    cursor stays at 0 however far the clock runs. *)
Theorem reset_rewinds_and_stops (now : Z) (book : Book) (w : Z) (st : Session) :
  reachable now book w st ->
  let r := handleReset st in
  index r = 0
  /\ isPlaying r = false
  /\ words r = words st
  /\ wpm r = wpm st
  /\ pending r = []
  /\ forall fuel target,
       option_map index (advanceTo fuel target r) = Some 0.
Proof.
  intros Hreach r.
  destruct (reachable_inv _ _ _ _ Hreach) as (_ & Hpaused & Hslot).
  assert (H : index r = 0 /\ isPlaying r = false /\ words r = words st
              /\ wpm r = wpm st /\ pending r = []).
  { unfold r, handleReset. destruct (isPlaying st) eqn:Hrun.
    - set (st' := set_isPlaying false (set_index 0 st)).
      destruct (rerunEffect_frame st') as (Hw & Hi & Hp & Hwpm & _).
      destruct (rerunEffect_slot st' Hslot) as (Hpe & _).
      rewrite Hw, Hi, Hp, Hwpm, Hpe. repeat split.
    - simpl. repeat split. now apply Hpaused. }
  destruct H as (Hi & Hp & Hw & Hwpm & Hnone).
  repeat apply conj; trivial.
  intros fuel target. rewrite advanceTo_unarmed by trivial. simpl.
  now rewrite Hi.
Qed.

Lemma reset_rewinds_and_stops_witness :
  let st := step Fire (step TogglePlay (openBook 0 fiveWords 300)) in
  index st = 1 /\ isPlaying st = true
  /\ index (handleReset st) = 0 /\ isPlaying (handleReset st) = false
  /\ pending (handleReset st) = [].
Proof.
  intros st.
  assert (Hreach : reachable 0 fiveWords 300 st)
    by (apply reach_step; apply reach_step; apply reach_open).
  destruct (reset_rewinds_and_stops 0 fiveWords 300 st Hreach)
    as (Hi & Hp & _ & _ & Hnone & _).
  repeat apply conj; trivial.
Defined.

(** ** The cursor *)

Lemma tick_index t st :
  index (tick t st)
  = if wordCount st - 1 <=? index st then index st else index st + 1.
Proof.
  unfold tick. set (st1 := scheduleNext (closure_wpm t) st).
  change (wordCount st1) with (wordCount st).
  change (index st1) with (index st).
  destruct (wordCount st - 1 <=? index st); [|reflexivity].
  destruct (isPlaying st1); [|reflexivity].
  now rewrite rerunEffect_index.
Qed.

Lemma fire_index st :
  index (fire st) = index st
  \/ (index st < wordCount st - 1 /\ index (fire st) = index st + 1).
Proof.
  unfold fire. destruct (earliest (pending st)) as [t|]; [|now left].
  rewrite tick_index. simpl.
  change (wordCount (set_clock (Z.max (clock st) (due t))
                       (set_pending (without (tid t) (pending st)) st)))
    with (wordCount st).
  destruct (Z.leb_spec (wordCount st - 1) (index st)); [now left | right; lia].
Qed.

Lemma step_cursor_ok e st : cursor_ok st -> cursor_ok (step e st).
Proof.
  unfold cursor_ok, wordCount. intros Hok. rewrite step_words.
  destruct e; simpl.
  - unfold handleTogglePlay. now rewrite rerunEffect_index.
  - unfold wordCount. lia.
  - unfold handleReset. destruct (isPlaying st);
      rewrite ?rerunEffect_index; simpl; lia.
  - unfold setRate. destruct (w =? wpm st); rewrite ?rerunEffect_index;
      simpl; lia.
  - destruct (fire_index st) as [-> | [Hmore ->]]; unfold wordCount in *; lia.
  - unfold idle.
    destruct ((0 <=? ms)
              && forallb (fun t => clock st + ms <=? due t) (pending st));
      simpl; lia.
Qed.

(** X4: a book opened at a stored position that points at one of its tokens
    keeps the cursor on a token, [0 <= cursor <= length - 1], through every
    toggle, skip, reset, rate change, tick and wait. *)
Theorem cursor_stays_in_range (now : Z) (book : Book) (w : Z) (st : Session) :
  0 <= lastPosition book
       <= Z.of_nat (length (tokenize (content book))) - 1 ->
  reachable now book w st ->
  0 <= index st <= wordCount st - 1.
Proof.
  intros Hpos. induction 1 as [| e st _ IH].
  - destruct (effectBody_frame
      (mkSession (tokenize (content book)) (js_or (lastPosition book) 0)
                 false w None [] now 1)) as (Hw & Hi & _).
    unfold wordCount, openBook. rewrite Hw, Hi. simpl. unfold js_or.
    destruct (Z.eqb_spec (lastPosition book) 0); lia.
  - now apply step_cursor_ok.
Qed.

Lemma cursor_stays_in_range_witness :
  let st := step (Skip 10) (step Fire (step TogglePlay
              (openBook 0 (fiveWordsAt 2) 300))) in
  index st = 4 /\ 0 <= index st <= wordCount st - 1.
Proof.
  intros st. split; [reflexivity|].
  apply (cursor_stays_in_range 0 (fiveWordsAt 2) 300 st).
  - vm_compute. split; discriminate.
  - repeat apply reach_step. apply reach_open.
Defined.

(** ** The timing of playback *)

Lemma iter_fire_ticking st d :
  ticking st d ->
  forall k : nat,
    index st + Z.of_nat k <= wordCount st - 1 ->
    ticking (Nat.iter k fire st) (d + Z.of_nat k * tickDelay (wpm st))
    /\ index (Nat.iter k fire st) = index st + Z.of_nat k
    /\ words (Nat.iter k fire st) = words st
    /\ wpm (Nat.iter k fire st) = wpm st
    /\ ((0 < k)%nat ->
        clock (Nat.iter k fire st)
        = d + (Z.of_nat k - 1) * tickDelay (wpm st)).
Proof.
  intros Ht. induction k as [|k IH]; intros Hroom.
  - change (Nat.iter 0 fire st) with st.
    replace (d + Z.of_nat 0 * tickDelay (wpm st)) with d by lia.
    split; [exact Ht|]. repeat apply conj; trivial; lia.
  - destruct IH as (Htk & Hik & Hwk & Hrk & _); [lia|].
    assert (Hmore : index (Nat.iter k fire st)
                    < wordCount (Nat.iter k fire st) - 1).
    { unfold wordCount in *. rewrite Hik, Hwk. lia. }
    destruct (ticking_fire_more _ _ Htk Hmore) as (Ht' & Hi' & Hc' & Hw' & Hr').
    change (Nat.iter (S k) fire st) with (fire (Nat.iter k fire st)).
    rewrite Hrk in Ht'.
    replace (d + Z.of_nat (S k) * tickDelay (wpm st))
      with (d + Z.of_nat k * tickDelay (wpm st) + tickDelay (wpm st)) by lia.
    split; [exact Ht'|]. repeat apply conj; try congruence.
    + rewrite Hi', Hik. lia.
    + intros _. rewrite Hc'. lia.
Qed.

Lemma togglePlay_ticking now book w st :
  reachable now book w st -> isPlaying st = false ->
  ticking (handleTogglePlay st) (clock st + tickDelay (wpm st))
  /\ index (handleTogglePlay st) = index st
  /\ words (handleTogglePlay st) = words st
  /\ wpm (handleTogglePlay st) = wpm st.
Proof.
  intros Hreach Hpaused.
  destruct (reachable_inv _ _ _ _ Hreach) as (Hfresh & _ & Hslot).
  unfold handleTogglePlay. rewrite Hpaused. cbn [negb].
  destruct (rerunEffect_frame (set_isPlaying true st)) as (Hw & Hi & _ & Hr & _).
  split; [|repeat apply conj; trivial].
  apply (rerunEffect_ticking (set_isPlaying true st)); trivial.
Qed.

(** C2, as the code has it: [settings.wpm] is a dependency of the playback
    effect, so a change of rate while Running cancels the pending tick and
    arms a new one, due one interval [60000 / wpm] of the new rate after the
    moment of the change; cursor and running flag are untouched.  Every later
    tick keeps the new interval: while tokens remain, the [k]-th tick after
    the change fires [k] new intervals after it, moves the cursor on by one,
    and arms the next tick one new interval later, again at the new rate. *)
Theorem setRate_restarts_wait
        (now : Z) (book : Book) (w0 : Z) (st : Session) (w : Z) :
  reachable now book w0 st ->
  isPlaying st = true ->
  w <> wpm st ->
  let st' := setRate w st in
  pending st' = [mkTimer (fresh st) (clock st + tickDelay w) w]
  /\ (forall t, In t (pending st) -> ~ In t (pending st'))
  /\ index st' = index st
  /\ isPlaying st' = true
  /\ wpm st' = w
  /\ forall k : nat,
       index st + Z.of_nat k <= wordCount st - 1 ->
       let later := Nat.iter k fire st' in
       index later = index st + Z.of_nat k
       /\ isPlaying later = true
       /\ wpm later = w
       /\ clock later = clock st + Z.of_nat k * tickDelay w
       /\ exists i,
            pending later
            = [mkTimer i (clock st + (Z.of_nat k + 1) * tickDelay w) w].
Proof.
  intros Hreach Hrun Hw st'.
  destruct (reachable_inv _ _ _ _ Hreach) as (Hfresh & _ & Hslot).
  assert (Hst' : st' = rerunEffect (set_wpm w st)).
  { unfold st', setRate. destruct (Z.eqb_spec w (wpm st)); congruence. }
  destruct (rerunEffect_slot (set_wpm w st) Hslot) as (Hp & _).
  simpl in Hp. rewrite Hrun in Hp.
  destruct (rerunEffect_frame (set_wpm w st))
    as (Hwords & Hi & Hpl & Hwpm & Hclock).
  assert (Ht : ticking (rerunEffect (set_wpm w st)) (clock st + tickDelay w))
    by (apply (rerunEffect_ticking (set_wpm w st)); trivial).
  rewrite Hst'.
  split; [exact Hp|]. split; [|split; [exact Hi|]].
  - intros t Hold Hnew. rewrite Hp in Hnew.
    destruct Hnew as [Hnew | []].
    destruct Hslot as [Hnone | (u & Hone & _ & Hid)].
    + rewrite Hnone in Hold. destruct Hold.
    + rewrite Hone in Hold. destruct Hold as [-> | []].
      rewrite <- Hnew in Hid. simpl in Hid. lia.
  - split; [now rewrite Hpl|]. split; [exact Hwpm|].
    intros k Hroom later.
    assert (Hroom' : index (rerunEffect (set_wpm w st)) + Z.of_nat k
                     <= wordCount (rerunEffect (set_wpm w st)) - 1).
    { unfold wordCount in *. rewrite Hi, Hwords. exact Hroom. }
    destruct (iter_fire_ticking _ _ Ht k Hroom')
      as (Htk & Hik & _ & Hrk & Hck).
    fold later in Htk, Hik, Hrk, Hck.
    rewrite Hwpm in Htk, Hrk, Hck.
    change (wpm (set_wpm w st)) with w in Htk, Hrk, Hck.
    destruct Htk as (Hplay & _ & _ & i & _ & Hpend & _).
    rewrite Hrk in Hpend.
    split; [rewrite Hik, Hi; reflexivity|].
    split; [exact Hplay|]. split; [exact Hrk|]. split.
    + destruct k as [|k].
      * unfold later. simpl. rewrite Hclock. simpl. lia.
      * rewrite Hck by lia. lia.
    + exists i. rewrite Hpend. do 2 f_equal. lia.
Qed.

Lemma setRate_restarts_wait_witness :
  let st := idle 50 (handleTogglePlay (openBook 0 fiveWords 300)) in
  isPlaying st = true
  /\ 600 <> wpm st
  /\ pending st = [mkTimer 1 200 300]
  /\ pending (setRate 600 st) = [mkTimer 2 150 600]
  /\ clock (fire (setRate 600 st)) = 150
  /\ exists i, pending (fire (setRate 600 st)) = [mkTimer i 250 600].
Proof.
  intros st.
  assert (Hreach : reachable 0 fiveWords 300 st).
  { apply (reach_step 0 fiveWords 300 (Idle 50)).
    apply (reach_step 0 fiveWords 300 TogglePlay).
    apply reach_open. }
  assert (Hw : 600 <> wpm st) by (vm_compute; discriminate).
  destruct (setRate_restarts_wait 0 fiveWords 300 st 600 Hreach eq_refl Hw)
    as (Hp & _ & _ & _ & _ & Hlater).
  assert (Hroom : index st + Z.of_nat 1 <= wordCount st - 1)
    by (vm_compute; discriminate).
  destruct (Hlater 1%nat Hroom) as (_ & _ & _ & Hc & Hnext).
  split; [reflexivity|]. split; [exact Hw|]. split; [reflexivity|].
  split; [exact Hp|]. split; [exact Hc | exact Hnext].
Defined.

(** X5: playback keeps time.  After play is pressed at time [c] with interval
    [d = 60000 / wpm], the [k]-th tick fires at [c + k * d] and puts the cursor
    [k] tokens further, for as long as tokens remain; the session is still
    Running and its next tick is due at [c + (k + 1) * d]. *)
Theorem playback_keeps_time
        (now : Z) (book : Book) (w : Z) (st : Session) (k : nat) :
  reachable now book w st ->
  isPlaying st = false ->
  index st + Z.of_nat k <= wordCount st - 1 ->
  let played := Nat.iter k fire (handleTogglePlay st) in
  index played = index st + Z.of_nat k
  /\ isPlaying played = true
  /\ clock played = clock st + Z.of_nat k * tickDelay (wpm st)
  /\ exists t, pending played = [t]
               /\ due t = clock st + (Z.of_nat k + 1) * tickDelay (wpm st).
Proof.
  intros Hreach Hpaused Hroom played.
  destruct (togglePlay_ticking _ _ _ _ Hreach Hpaused) as (Ht & Hi & Hw & Hr).
  assert (Hroom' : index (handleTogglePlay st) + Z.of_nat k
                   <= wordCount (handleTogglePlay st) - 1).
  { unfold wordCount in *. rewrite Hi, Hw. exact Hroom. }
  destruct (iter_fire_ticking _ _ Ht k Hroom')
    as (Htk & Hik & _ & _ & Hck).
  fold played in Htk, Hik, Hck. rewrite Hr in Htk, Hck.
  destruct Htk as (Hp & _ & _ & i & _ & Hpend & _).
  repeat apply conj; trivial.
  - now rewrite Hik, Hi.
  - destruct k as [|k].
    + unfold played. simpl.
      unfold handleTogglePlay.
      destruct (rerunEffect_frame (set_isPlaying (negb (isPlaying st)) st))
        as (_ & _ & _ & _ & ->). simpl. lia.
    + rewrite Hck by lia. lia.
  - eexists. split; [exact Hpend|]. simpl. lia.
Qed.

Lemma playback_keeps_time_witness :
  let st := openBook 0 fiveWords 300 in
  let played := Nat.iter 3 fire (handleTogglePlay st) in
  isPlaying st = false
  /\ index played = 3
  /\ clock played = 600.
Proof.
  intros st played.
  assert (Hroom : index st + Z.of_nat 3 <= wordCount st - 1)
    by (vm_compute; discriminate).
  destruct (playback_keeps_time 0 fiveWords 300 st 3
              (reach_open 0 fiveWords 300) eq_refl Hroom)
    as (Hi & _ & Hc & _).
  split; [reflexivity|]. split; [exact Hi | exact Hc].
Defined.

(** X6: playback ends by itself.  From a cursor with [n] tokens after it,
    [n + 1] ticks after play was pressed the session is Paused on the last
    token with no timer armed; that is at time [c + (n + 1) * d], and later
    firings find nothing to run. *)
Theorem playback_reaches_end
        (now : Z) (book : Book) (w : Z) (st : Session) :
  reachable now book w st ->
  isPlaying st = false ->
  index st <= wordCount st - 1 ->
  let n := Z.to_nat (wordCount st - 1 - index st) in
  let done := Nat.iter (S n) fire (handleTogglePlay st) in
  index done = wordCount st - 1
  /\ isPlaying done = false
  /\ pending done = []
  /\ clock done = clock st + (Z.of_nat n + 1) * tickDelay (wpm st)
  /\ fire done = done.
Proof.
  intros Hreach Hpaused Hroom n done.
  destruct (togglePlay_ticking _ _ _ _ Hreach Hpaused) as (Ht & Hi & Hw & Hr).
  assert (Hroom' : index (handleTogglePlay st) + Z.of_nat n
                   <= wordCount (handleTogglePlay st) - 1).
  { unfold wordCount in *. rewrite Hi, Hw. unfold n. lia. }
  destruct (iter_fire_ticking _ _ Ht n Hroom')
    as (Htn & Hin & Hwn & Hrn & _).
  assert (Hend : wordCount (Nat.iter n fire (handleTogglePlay st)) - 1
                 <= index (Nat.iter n fire (handleTogglePlay st))).
  { unfold wordCount in *. rewrite Hin, Hwn, Hi, Hw. unfold n. lia. }
  destruct (ticking_fire_end _ _ Htn Hend)
    as (Hoff & Hix & Hnone & Hck & _).
  unfold done.
  change (Nat.iter (S n) fire (handleTogglePlay st))
    with (fire (Nat.iter n fire (handleTogglePlay st))).
  repeat apply conj; trivial.
  - rewrite Hix, Hin, Hi. unfold n. lia.
  - rewrite Hck, Hr. lia.
  - now apply fire_unarmed.
Qed.

Lemma playback_reaches_end_witness :
  let st := openBook 0 (fiveWordsAt 2) 300 in
  let done := Nat.iter 3 fire (handleTogglePlay st) in
  isPlaying st = false
  /\ index done = 4 /\ isPlaying done = false /\ clock done = 600.
Proof.
  intros st done.
  assert (Hroom : index st <= wordCount st - 1) by (vm_compute; discriminate).
  destruct (playback_reaches_end 0 (fiveWordsAt 2) 300 st
              (reach_open 0 (fiveWordsAt 2) 300) eq_refl Hroom)
    as (Hi & Hp & _ & Hc & _).
  split; [reflexivity|]. split; [exact Hi|]. split; [exact Hp | exact Hc].
Defined.

(** X7: a rate set while Paused arms nothing; it is the rate of the next
    play: the first tick is then due one interval of the new rate after play
    is pressed. *)
Theorem setRate_while_paused
        (now : Z) (book : Book) (w0 : Z) (st : Session) (w : Z) :
  reachable now book w0 st ->
  isPlaying st = false ->
  let st' := setRate w st in
  isPlaying st' = false
  /\ pending st' = []
  /\ index st' = index st
  /\ wpm st' = w
  /\ pending (handleTogglePlay st')
     = [mkTimer (fresh st) (clock st + tickDelay w) w].
Proof.
  intros Hreach Hpaused st'.
  destruct (reachable_inv _ _ _ _ Hreach) as (Hfresh & Hnone & Hslot).
  assert (Hreach' : reachable now book w0 st')
    by exact (reach_step now book w0 (SetRate w) st Hreach).
  destruct (reachable_inv _ _ _ _ Hreach') as (_ & Hnone' & Hslot').
  assert (H : isPlaying st' = false /\ index st' = index st /\ wpm st' = w
              /\ clock st' = clock st /\ fresh st' = fresh st).
  { unfold st', setRate. destruct (Z.eqb_spec w (wpm st)) as [-> | Hne].
    - repeat split. exact Hpaused.
    - destruct (rerunEffect_frame (set_wpm w st)) as (_ & Hi & Hp & Hr & Hc).
      destruct (rerunEffect_slot (set_wpm w st) Hslot) as (_ & _ & Hf).
      simpl in Hf. rewrite Hpaused in Hf.
      rewrite Hi, Hp, Hr, Hc, Hf. repeat split. exact Hpaused. }
  destruct H as (Hp & Hi & Hr & Hc & Hf).
  repeat apply conj; trivial.
  - now apply Hnone'.
  - unfold handleTogglePlay.
    destruct (rerunEffect_slot (set_isPlaying (negb (isPlaying st')) st')
                Hslot') as (-> & _).
    simpl. rewrite Hp. simpl. now rewrite Hf, Hc, Hr.
Qed.

Lemma setRate_while_paused_witness :
  let st := openBook 0 fiveWords 300 in
  isPlaying st = false
  /\ pending (handleTogglePlay (setRate 600 st)) = [mkTimer 1 100 600].
Proof.
  intros st. split; [reflexivity|].
  exact (proj2 (proj2 (proj2 (proj2
           (setRate_while_paused 0 fiveWords 300 st 600
              (reach_open 0 fiveWords 300) eq_refl))))).
Defined.

(** ** Tokens, the display and the assist requests *)

Lemma Tokens_tokens s ts : Tokens s ts -> Forall is_token ts.
Proof.
  induction 1 as [s Hs | gap w rest ts Hgap Hw Hclean Hrest Hts IH];
    constructor; trivial.
  now split.
Qed.

Lemma reachable_tokens now book w st :
  reachable now book w st -> Forall is_token (words st).
Proof.
  intros Hreach. rewrite (reachable_words _ _ _ _ Hreach).
  apply (Tokens_tokens (content book)). apply tokenize_Tokens.
Qed.

Lemma Tokens_join ws :
  Forall is_token ws -> Tokens (join (lit " ") ws) ws.
Proof.
  induction 1 as [| w rest [Hne Hclean] Hrest IH].
  - now apply Tokens_blank.
  - cbn [join]. destruct rest as [|w' rest].
    + rewrite <- (app_nil_r w) at 1.
      apply (Tokens_word [] w [] []); trivial.
    + apply (Tokens_word [] w (lit " " ++ join (lit " ") (w' :: rest))
               (w' :: rest)); trivial.
      * reflexivity.
      * apply Tokens_ws_cons; [reflexivity | exact IH].
Qed.

(** X8: joining tokens with single spaces and tokenizing the result gives the
    tokens back; in particular re-tokenizing the joined tokens of any text
    changes nothing. *)
Theorem tokenize_join_round_trip (ws : list jsstring) :
  Forall is_token ws ->
  tokenize (join (lit " ") ws) = ws
  /\ forall text, tokenize (join (lit " ") (tokenize text)) = tokenize text.
Proof.
  assert (H : forall l, Forall is_token l -> tokenize (join (lit " ") l) = l).
  { intros l Hl. symmetry.
    exact (Tokens_functional _ _ (Tokens_join l Hl) _ (tokenize_Tokens _)). }
  intros Hws. split; [now apply H|].
  intros text. apply H. apply (Tokens_tokens text). apply tokenize_Tokens.
Qed.

Lemma tokenize_join_round_trip_witness :
  Forall is_token [lit "speed"; lit "reader"]
  /\ tokenize (lit "speed reader") = [lit "speed"; lit "reader"].
Proof.
  assert (H : Forall is_token [lit "speed"; lit "reader"]).
  { repeat constructor; discriminate. }
  split; [exact H|].
  exact (proj1 (tokenize_join_round_trip [lit "speed"; lit "reader"] H)).
Defined.

(** X9: what the reader displays.  With the cursor on a token, the triple on
    screen is a split of exactly that token, which is never empty, around a
    pivot of one unit; with the cursor off the tokens (an empty book, a stale
    position) all three parts are empty. *)
Theorem display_shows_current_word
        (now : Z) (book : Book) (w : Z) (st : Session) :
  reachable now book w st ->
  (0 <= index st <= wordCount st - 1 ->
   exists word c,
     currentWord st = Some word
     /\ is_token word
     /\ orp (currentSpritz st) = [c]
     /\ prefix (currentSpritz st) ++ [c] ++ suffix (currentSpritz st) = word)
  /\ (index st < 0 \/ wordCount st <= index st ->
      currentWord st = None /\ currentSpritz st = mkSpritz [] [] []).
Proof.
  intros Hreach. assert (Htok := reachable_tokens _ _ _ _ Hreach).
  unfold currentWord, currentSpritz, wordCount. split.
  - intros Hin.
    replace (index st <? 0) with false by (symmetry; apply Z.ltb_ge; lia).
    destruct (nth_error (words st) (Z.to_nat (index st))) as [word|] eqn:E.
    + assert (Hword : is_token word).
      { rewrite Forall_forall in Htok. apply Htok.
        exact (nth_error_In _ _ E). }
      destruct Hword as [Hne Hclean].
      assert (Hrange := proj2 (orpIndex_table _ (jslength_pos word Hne))).
      destruct (charAt_unit word _ Hrange) as (c & _ & Hat).
      exists word, c. rewrite getSpritzWord_cut by trivial. cbn zeta.
      cbn [prefix orp suffix]. repeat apply conj; trivial.
      rewrite <- Hat. now apply cut_rejoins.
    + apply nth_error_None in E. lia.
  - intros [Hneg | Hbeyond].
    + replace (index st <? 0) with true by (symmetry; apply Z.ltb_lt; lia).
      now split.
    + destruct (index st <? 0); [now split|].
      assert (E : nth_error (words st) (Z.to_nat (index st)) = None)
        by (apply nth_error_None; lia).
      rewrite E. now split.
Qed.

Lemma display_shows_current_word_witness :
  let st := openBook 0 (fiveWordsAt 2) 300 in
  exists word c,
    currentWord st = Some word /\ is_token word
    /\ orp (currentSpritz st) = [c]
    /\ prefix (currentSpritz st) ++ [c] ++ suffix (currentSpritz st) = word.
Proof.
  intros st.
  apply (display_shows_current_word 0 (fiveWordsAt 2) 300 st).
  - apply reach_open.
  - vm_compute. split; discriminate.
Defined.

Lemma Forall_firstn {A : Type} (P : A -> Prop) n (l : list A) :
  Forall P l -> Forall P (firstn n l).
Proof.
  intros H. revert n. induction H as [| x l Hx Hl IH]; intros [|n]; simpl;
    constructor; auto.
Qed.

Lemma Forall_skipn {A : Type} (P : A -> Prop) n (l : list A) :
  Forall P l -> Forall P (skipn n l).
Proof.
  intros H. revert n. induction H as [| x l Hx Hl IH]; intros [|n]; simpl;
    auto.
Qed.

Lemma Forall_slice {A : Type} (P : A -> Prop) (l : list A) a b :
  Forall P l -> Forall P (slice l a b).
Proof. intros H. unfold slice. now apply Forall_firstn, Forall_skipn. Qed.

(** A slice between bounds that lie in the array, in order. *)
Lemma slice_segment {A : Type} (l : list A) a b :
  0 <= a <= b -> b <= Z.of_nat (length l) ->
  length (slice l a b) = Z.to_nat (b - a)
  /\ forall i, a <= i < b ->
       nth_error (slice l a b) (Z.to_nat (i - a)) = nth_error l (Z.to_nat i).
Proof.
  intros Hab Hb. unfold slice.
  replace (a <? 0) with false by (symmetry; apply Z.ltb_ge; lia).
  replace (b <? 0) with false by (symmetry; apply Z.ltb_ge; lia).
  replace (Z.min a (Z.of_nat (length l))) with a by lia.
  replace (Z.min b (Z.of_nat (length l))) with b by lia.
  replace (Z.max (b - a) 0) with (b - a) by lia.
  split.
  - rewrite length_firstn, length_skipn. lia.
  - intros i Hi. rewrite nth_error_firstn, nth_error_skipn.
    replace (Z.to_nat (i - a) <? Z.to_nat (b - a))%nat with true
      by (symmetry; apply Nat.ltb_lt; lia).
    f_equal. lia.
Qed.

Section Window.

Variables (now : Z) (book : Book) (w : Z) (st : Session).
Hypothesis reached : reachable now book w st.
Hypothesis on_token : 0 <= index st <= wordCount st - 1.

(** A window [before] tokens back and [after] tokens on around the cursor. *)
Lemma window_around before after :
  0 <= before -> 0 < after ->
  let a := Z.max 0 (index st - before) in
  let b := Z.min (wordCount st) (index st + after) in
  let win := slice (words st) a b in
  (length win <= Z.to_nat (before + after))%nat
  /\ Z.of_nat (length win) = b - a
  /\ nth_error win (Z.to_nat (index st - a)) = currentWord st
  /\ tokenize (join (lit " ") win) = win.
Proof.
  intros Hbefore Hafter a b win.
  assert (Hab : 0 <= a <= b) by (unfold a, b; lia).
  assert (Hb : b <= Z.of_nat (length (words st)))
    by (unfold b, wordCount; lia).
  destruct (slice_segment (words st) a b Hab Hb) as (Hlen & Hnth).
  fold win in Hlen, Hnth.
  repeat apply conj.
  - rewrite Hlen. unfold a, b. lia.
  - rewrite Hlen. lia.
  - rewrite Hnth by (unfold a, b; lia). unfold currentWord.
    now replace (index st <? 0) with false by (symmetry; apply Z.ltb_ge; lia).
  - symmetry. apply (Tokens_functional (join (lit " ") win)).
    + apply Tokens_join. apply Forall_slice.
      exact (reachable_tokens _ _ _ _ reached).
    + apply tokenize_Tokens.
Qed.

End Window.

(** X10: the passage that [handleSummarize] sends, with the cursor on a token:
    the tokens from 50 before the cursor (or the start) to 299 after it (or
    the end), at most 350 of them, the current word among them at offset
    [index - start], joined by single spaces so that tokenizing the passage
    gives those tokens back. *)
Theorem summary_passage (now : Z) (book : Book) (w : Z) (st : Session) :
  reachable now book w st ->
  0 <= index st <= wordCount st - 1 ->
  let win := slice (words st) (summaryStart st) (summaryEnd st) in
  (length win <= 350)%nat
  /\ Z.of_nat (length win) = summaryEnd st - summaryStart st
  /\ nth_error win (Z.to_nat (index st - summaryStart st)) = currentWord st
  /\ tokenize (summaryContext st) = win.
Proof.
  intros Hreach Hin.
  exact (window_around now book w st Hreach Hin 50 300 ltac:(lia) ltac:(lia)).
Qed.

Lemma summary_passage_witness :
  let st := openBook 0 (fiveWordsAt 2) 300 in
  0 <= index st <= wordCount st - 1
  /\ tokenize (summaryContext st) = words st.
Proof.
  intros st.
  assert (Hin : 0 <= index st <= wordCount st - 1)
    by (vm_compute; split; discriminate).
  split; [exact Hin|].
  exact (proj2 (proj2 (proj2
           (summary_passage 0 (fiveWordsAt 2) 300 st
              (reach_open 0 (fiveWordsAt 2) 300) Hin)))).
Defined.

(** X11: what [handleExplain] sends, with the cursor on a token: the current
    word, and as context the tokens from 10 before the cursor to 9 after it,
    at most 20, cut at the ends of the book, the current word among them. *)
Theorem explain_request (now : Z) (book : Book) (w : Z) (st : Session) :
  reachable now book w st ->
  0 <= index st <= wordCount st - 1 ->
  let win := slice (words st) (explainStart st) (explainEnd st) in
  (exists word, currentWord st = Some word /\ is_token word)
  /\ (length win <= 20)%nat
  /\ Z.of_nat (length win) = explainEnd st - explainStart st
  /\ nth_error win (Z.to_nat (index st - explainStart st)) = currentWord st
  /\ tokenize (explainContext st) = win.
Proof.
  intros Hreach Hin. split.
  - unfold currentWord.
    replace (index st <? 0) with false by (symmetry; apply Z.ltb_ge; lia).
    destruct (nth_error (words st) (Z.to_nat (index st))) as [word|] eqn:E.
    + exists word. split; trivial.
      assert (Htok := reachable_tokens _ _ _ _ Hreach).
      rewrite Forall_forall in Htok. apply Htok. exact (nth_error_In _ _ E).
    + apply nth_error_None in E. unfold wordCount in Hin. lia.
  - exact (window_around now book w st Hreach Hin 10 10 ltac:(lia) ltac:(lia)).
Qed.

Lemma explain_request_witness :
  let st := openBook 0 (fiveWordsAt 2) 300 in
  0 <= index st <= wordCount st - 1
  /\ currentWord st = Some (lit "three")
  /\ tokenize (explainContext st) = words st.
Proof.
  intros st.
  assert (Hin : 0 <= index st <= wordCount st - 1)
    by (vm_compute; split; discriminate).
  split; [exact Hin|]. split; [reflexivity|].
  exact (proj2 (proj2 (proj2 (proj2
           (explain_request 0 (fiveWordsAt 2) 300 st
              (reach_open 0 (fiveWordsAt 2) 300) Hin))))).
Defined.

(** ** The library card's word count *)






(** The bounds are met: an empty text counts 1 word, a blank one 2, and
    padding around two words gives 4. *)
Example library_counts :
  libraryWordCount (mkBook [] [] (lit "") 0 0) = 1
  /\ libraryWordCount blankBook = 2
  /\ libraryWordCount (mkBook [] [] (lit " a b ") 0 0) = 4
  /\ libraryWordCount fiveWords = 5.
Proof. repeat split. Qed.

(** ** The reader's progress figures *)


(** ** The application shell *)

Lemma jsstring_eqb_eq a : forall b, jsstring_eqb a b = true <-> a = b.
Proof.
  induction a as [|x a IH]; intros [|y b]; simpl; split; intros H;
    try discriminate; trivial.
  - apply andb_prop in H. destruct H as [Hx Ha].
    apply N.eqb_eq in Hx. apply IH in Ha. congruence.
  - injection H as -> ->. rewrite N.eqb_refl. simpl. now apply IH.
Qed.

Lemma jsstring_eqb_refl a : jsstring_eqb a a = true.
Proof. now apply jsstring_eqb_eq. Qed.

Lemma jsstring_eqb_neq a b : jsstring_eqb a b = false <-> a <> b.
Proof.
  split.
  - intros H E. apply jsstring_eqb_eq in E. congruence.
  - intros H. destruct (jsstring_eqb a b) eqn:E; trivial.
    apply jsstring_eqb_eq in E. contradiction.
Qed.

Lemma openBook_opens now book w :
  index (openBook now book w) = lastPosition book
  /\ isPlaying (openBook now book w) = false
  /\ words (openBook now book w) = tokenize (content book)
  /\ wpm (openBook now book w) = w.
Proof.
  unfold openBook, effectBody, clearRef, js_or. simpl.
  repeat apply conj; trivial.
  destruct (Z.eqb_spec (lastPosition book) 0); congruence.
Qed.

(** X14: the position store.  [updateBookPosition] records the position on
    every book with the given id and touches nothing else: the books keep
    their order, ids, titles and contents, books with another id keep their
    position, the active book and the view are as before; the last write
    wins, and an id that no book has changes nothing. *)
Theorem updateBookPosition_store (i : jsstring) (pos : Z) (app : AppState) :
  let app' := updateBookPosition i pos app in
  map id (books app') = map id (books app)
  /\ map content (books app') = map content (books app)
  /\ map title (books app') = map title (books app)
  /\ (forall n b, nth_error (books app) n = Some b ->
        nth_error (books app') n
        = Some (if jsstring_eqb (id b) i then withPosition pos b else b))
  /\ (forall b, In b (books app') -> id b = i -> lastPosition b = pos)
  /\ activeBook app' = activeBook app
  /\ view app' = view app
  /\ (forall pos0, updateBookPosition i pos (updateBookPosition i pos0 app)
                   = app')
  /\ ((forall b, In b (books app) -> id b <> i) -> app' = app).
Proof.
  cbv zeta. unfold updateBookPosition. cbn [books activeBook view settings].
  repeat apply conj; trivial.
  - rewrite map_map. apply map_ext. intros b.
    now destruct (jsstring_eqb (id b) i).
  - rewrite map_map. apply map_ext. intros b.
    now destruct (jsstring_eqb (id b) i).
  - rewrite map_map. apply map_ext. intros b.
    now destruct (jsstring_eqb (id b) i).
  - intros n b Hn. rewrite nth_error_map, Hn. reflexivity.
  - intros b Hin Hid. apply in_map_iff in Hin. destruct Hin as (b0 & <- & _).
    destruct (jsstring_eqb (id b0) i) eqn:E; [reflexivity|].
    apply jsstring_eqb_neq in E. contradiction.
  - intros pos0. f_equal. rewrite map_map. apply map_ext. intros b.
    destruct (jsstring_eqb (id b) i) eqn:E; cbn [id withPosition];
      rewrite E; reflexivity.
  - intros Hnone. destruct app as [bs v a s]. cbn [books] in *. f_equal.
    rewrite <- (map_id bs) at 2. apply map_ext_in. intros b Hin.
    destruct (jsstring_eqb (id b) i) eqn:E; [|reflexivity].
    apply jsstring_eqb_eq in E. now apply Hnone in Hin.
Qed.

(** X15: a saved position is where the book opens again from the library.
    After [updateBookPosition] for the book on card [n], a click on that card
    mounts the reader Paused on the same tokens with the cursor at the saved
    position. *)
Theorem saved_position_reopens
        (now : Z) (app : AppState) (n : nat) (b : Book) (pos : Z) :
  nth_error (books app) n = Some b ->
  exists s,
    readerOf now (selectCard n (updateBookPosition (id b) pos app)) = Some s
    /\ index s = pos
    /\ isPlaying s = false
    /\ words s = tokenize (content b)
    /\ wpm s = Settings.wpm (settings app).
Proof.
  intros Hn. unfold selectCard, updateBookPosition. cbn [books].
  rewrite nth_error_map, Hn. cbn [option_map].
  rewrite jsstring_eqb_refl. unfold readerOf, handleSelectBook.
  cbn [view activeBook settings]. eexists. split; [reflexivity|].
  destruct (openBook_opens now (withPosition pos b)
              (Settings.wpm (settings app))) as (Hi & Hp & Hw & Hr).
  repeat apply conj; trivial.
Qed.

Lemma saved_position_reopens_witness :
  nth_error (books sampleApp) 0 = Some fiveWords
  /\ exists s,
       readerOf 0 (selectCard 0 (updateBookPosition (lit "k3x9q") 3 sampleApp))
       = Some s
       /\ index s = 3.
Proof.
  split; [reflexivity|].
  destruct (saved_position_reopens 0 sampleApp 0 fiveWords 3 eq_refl)
    as (s & Hs & Hi & _).
  exists s. split; [exact Hs | exact Hi].
Defined.

Lemma updateBookPosition_hits i pos app b :
  In b (books (updateBookPosition i pos app)) -> id b = i ->
  lastPosition b = pos.
Proof.
  unfold updateBookPosition. cbn [books]. intros Hin Hid.
  apply in_map_iff in Hin. destruct Hin as (b0 & <- & _).
  destruct (jsstring_eqb (id b0) i) eqn:E; [reflexivity|].
  apply jsstring_eqb_neq in E. contradiction.
Qed.

Lemma reportPosition_keeps scr :
  activeBook (shell (reportPosition scr)) = activeBook (shell scr)
  /\ view (shell (reportPosition scr)) = view (shell scr)
  /\ mounted (reportPosition scr) = mounted scr.
Proof.
  unfold reportPosition.
  destruct (mounted scr) as [s|] eqn:Em; [|now repeat split].
  destruct (activeBook (shell scr)) as [book|] eqn:E.
  - cbn [shell mounted]. unfold updateBookPosition. cbn [activeBook view].
    now repeat split.
  - now repeat split.
Qed.

Lemma mountReader_keeps now app :
  activeBook (shell (mountReader now app)) = activeBook app
  /\ view (shell (mountReader now app)) = view app.
Proof.
  unfold mountReader. destruct (activeBook app) eqn:E; [|now split].
  destruct (reportPosition_keeps
              (mkScreen app (Some (openBook now b (Settings.wpm (settings app))))))
    as (Ha & Hv & _).
  rewrite Ha, Hv. now split.
Qed.

Lemma screenStep_keeps_selection scr ev :
  activeBook (shell (screenStep scr ev)) = activeBook (shell scr).
Proof.
  destruct ev as [e | | now]; simpl.
  - unfold inReader. destruct (mounted scr); [|reflexivity].
    rewrite (proj1 (reportPosition_keeps _)). cbn [shell].
    now destruct e.
  - reflexivity.
  - unfold pressResume. destruct (view (shell scr)); [|reflexivity].
    now rewrite (proj1 (mountReader_keeps _ _)).
Qed.

(** X16: Resume Reading opens the copy of the book taken when it was
    selected.  Reading, changing the speed, leaving the reader and coming
    back never change [activeBook], though the reader keeps writing its
    cursor to [books].  So once the view is the library, Resume Reading
    mounts the reader Paused at the position the book had when it was
    selected, and the mount writes that position back to [books] over what
    was saved since; pressed while the reader is shown it changes nothing. *)
Theorem resume_uses_selection_snapshot
        (now : Z) (scr : Screen) (b : Book) (evs : list screenEvent) :
  activeBook (shell scr) = Some b ->
  let before := fold_left screenStep evs scr in
  activeBook (shell before) = Some b
  /\ (view (shell before) = reader -> pressResume now before = before)
  /\ (view (shell before) = library ->
      let resumed := pressResume now before in
      view (shell resumed) = reader
      /\ (exists s, mounted resumed = Some s
                    /\ index s = lastPosition b
                    /\ isPlaying s = false
                    /\ words s = tokenize (content b))
      /\ forall b', In b' (books (shell resumed)) -> id b' = id b ->
                    lastPosition b' = lastPosition b).
Proof.
  intros Hb before.
  assert (Hbefore : before = fold_left screenStep evs scr) by reflexivity.
  clearbody before.
  assert (Hkeep : activeBook (shell before) = Some b).
  { rewrite Hbefore. clear Hbefore. revert scr Hb.
    induction evs as [| ev evs IH]; intros scr Hb; [exact Hb|].
    simpl. apply IH. now rewrite screenStep_keeps_selection. }
  split; [exact Hkeep|]. split.
  - intros Hview. unfold pressResume. now rewrite Hview.
  - intros Hview resumed.
    assert (Hres : resumed
              = mkScreen
                  (updateBookPosition (id b) (lastPosition b)
                     (resumeReading (shell before)))
                  (Some (openBook now b
                           (Settings.wpm (settings (shell before)))))).
    { unfold resumed, pressResume. rewrite Hview.
      unfold mountReader, reportPosition, resumeReading.
      cbn [activeBook shell mounted settings]. rewrite Hkeep.
      now rewrite (proj1 (openBook_opens now b _)). }
    rewrite Hres. cbn [shell mounted].
    destruct (openBook_opens now b (Settings.wpm (settings (shell before))))
      as (Hi & Hp & Hw & _).
    split; [reflexivity|]. split.
    + eexists. split; [reflexivity|]. now repeat split.
    + intros b' Hin Hid. exact (updateBookPosition_hits _ _ _ _ Hin Hid).
Qed.

Lemma resume_uses_selection_snapshot_witness :
  let scr := openCard 0 0 (mkScreen sampleApp None) in
  let before := fold_left screenStep
                  [InReader TogglePlay; InReader Fire; InReader Fire;
                   InReader Fire; PressLibrary] scr in
  activeBook (shell scr) = Some fiveWords
  /\ option_map lastPosition (nth_error (books (shell before)) 0) = Some 3
  /\ view (shell before) = library
  /\ (exists s, mounted (pressResume 900 before) = Some s /\ index s = 0)
  /\ forall b', In b' (books (shell (pressResume 900 before))) ->
                id b' = id fiveWords -> lastPosition b' = 0.
Proof.
  intros scr before.
  destruct (resume_uses_selection_snapshot 900 scr fiveWords
              [InReader TogglePlay; InReader Fire; InReader Fire;
               InReader Fire; PressLibrary] eq_refl)
    as (_ & _ & Hlib).
  destruct (Hlib eq_refl) as (_ & (s & Hs & Hi & _) & Hbooks).
  split; [reflexivity|]. split; [reflexivity|]. split; [reflexivity|].
  split; [exists s; split; [exact Hs | exact Hi] | exact Hbooks].
Defined.

(** X17: deleting a book.  [handleDeleteBook] removes every book with the id
    and keeps the others in order; an active book with that id is cleared,
    another one is kept; the view stays; afterwards a position arriving for
    the deleted id changes nothing, and if the active book was the deleted
    one, Resume Reading has no reader to show. *)
Theorem handleDeleteBook_removes (now : Z) (i : jsstring) (app : AppState) :
  let app' := handleDeleteBook i app in
  (forall b, In b (books app') <-> In b (books app) /\ id b <> i)
  /\ books app' = filter (fun b => negb (jsstring_eqb (id b) i)) (books app)
  /\ (forall b, activeBook app = Some b ->
        (id b = i -> activeBook app' = None
                     /\ readerOf now (resumeReading app') = None)
        /\ (id b <> i -> activeBook app' = Some b))
  /\ view app' = view app
  /\ forall pos, updateBookPosition i pos app' = app'.
Proof.
  cbv zeta. repeat apply conj; trivial.
  - intros b. unfold handleDeleteBook. cbn [books]. rewrite filter_In.
    rewrite negb_true_iff, jsstring_eqb_neq. reflexivity.
  - intros b Hb. unfold handleDeleteBook, readerOf, resumeReading.
    cbn [activeBook view]. rewrite Hb. split; intros Hid.
    + apply jsstring_eqb_eq in Hid. rewrite Hid. now split.
    + apply jsstring_eqb_neq in Hid. now rewrite Hid.
  - intros pos. unfold updateBookPosition, handleDeleteBook.
    cbn [books view activeBook settings]. f_equal.
    rewrite <- (map_id (filter _ (books app))) at 2.
    apply map_ext_in. intros b Hin. apply filter_In in Hin.
    destruct Hin as [_ Hkeep]. apply negb_true_iff in Hkeep.
    now rewrite Hkeep.
Qed.

(** X18: adding a book.  [handleAddBook] puts the new book first, at position
    0, and shifts the cards of the other books by one without changing them;
    a click on the first card then opens the reader Paused at the first of its
    tokens. *)
Theorem handleAddBook_prepends
        (now : Z) (newId : jsstring) (addedNow : Z)
        (newTitle newContent : jsstring) (app : AppState) :
  let app' := handleAddBook newId addedNow newTitle newContent app in
  books app' = mkBook newId newTitle newContent 0 addedNow :: books app
  /\ (forall n, nth_error (books app') (S n) = nth_error (books app) n)
  /\ activeBook app' = activeBook app
  /\ view app' = view app
  /\ exists s, readerOf now (selectCard 0 app') = Some s
               /\ index s = 0
               /\ isPlaying s = false
               /\ words s = tokenize newContent.
Proof.
  cbv zeta. repeat apply conj; trivial.
  unfold selectCard, handleAddBook, readerOf, handleSelectBook.
  cbn [books nth_error view activeBook settings].
  eexists. split; [reflexivity|].
  destruct (openBook_opens now (mkBook newId newTitle newContent 0 addedNow)
              (Settings.wpm (settings app))) as (Hi & Hp & Hw & _).
  repeat apply conj; trivial.
Qed.

(** ** Importing books *)

Lemma stripExtension_cut base :
  forall ext,
    ext <> [] -> forallb ext_unit ext = true ->
    stripExtension (base ++ 46%N :: ext) = base.
Proof.
  induction base as [|c base IH]; intros ext Hne Hext.
  - cbn [app stripExtension extension_here]. rewrite Hext.
    destruct ext; [congruence | reflexivity].
  - cbn [app stripExtension].
    assert (Hnot : extension_here (c :: base ++ 46%N :: ext) = false).
    { cbn [extension_here]. rewrite forallb_app. cbn [forallb].
      replace (ext_unit 46%N) with false by reflexivity.
      now rewrite andb_false_r, andb_false_r. }
    rewrite Hnot. f_equal. now apply IH.
Qed.

Lemma stripExtension_keep name :
  (forall base ext, name = base ++ 46%N :: ext ->
                    ext = [] \/ forallb ext_unit ext = false) ->
  stripExtension name = name.
Proof.
  induction name as [|c rest IH]; intros Hno; trivial.
  cbn [stripExtension].
  destruct (extension_here (c :: rest)) eqn:E.
  - cbn [extension_here] in E. apply andb_prop in E. destruct E as [E Hext].
    apply andb_prop in E. destruct E as [Hdot Hne].
    apply N.eqb_eq in Hdot. subst c.
    destruct (Hno [] rest eq_refl) as [-> | Hbad].
    + discriminate Hne.
    + congruence.
  - f_equal. apply IH. intros base ext ->.
    exact (Hno (c :: base) ext eq_refl).
Qed.

(** X19: the title of an uploaded text file.  A name that ends in a dot
    followed by one or more units without dot or slash loses exactly that
    ending; any other name is kept whole (no dot, a dot last, a slash after
    the last dot); the title is always a prefix of the name, and a name that
    is only an extension gives the empty title. *)
Theorem stripExtension_spec (name : jsstring) :
  (forall base ext,
      name = base ++ 46%N :: ext ->
      ext <> [] -> forallb ext_unit ext = true ->
      stripExtension name = base)
  /\ ((forall base ext, name = base ++ 46%N :: ext ->
                        ext = [] \/ forallb ext_unit ext = false) ->
      stripExtension name = name)
  /\ (exists rest, name = stripExtension name ++ rest)
  /\ stripExtension (lit ".txt") = []
  /\ stripExtension (lit "archive.tar.gz") = lit "archive.tar".
Proof.
  repeat apply conj; try reflexivity.
  - intros base ext ->. apply stripExtension_cut.
  - apply stripExtension_keep.
  - induction name as [|c rest [tail IH]]; [now exists []|].
    cbn [stripExtension]. destruct (extension_here (c :: rest)).
    + now exists (c :: rest).
    + exists tail. cbn [app]. now rewrite <- IH.
Qed.

Lemma nonempty_true (w : jsstring) : nonempty w = true -> w <> [].
Proof. destruct w; [discriminate | discriminate]. Qed.

Lemma nonempty_true_or_nil (w : jsstring) : nonempty w = true \/ w = [].
Proof. destruct w; [now right | now left]. Qed.

(** X20: the manual import adds a book only when both title and content are
    non-empty, and then clears and closes the form, so that a second press
    adds nothing; the content may still be blank, in which case the book has
    no tokens. *)
Theorem handleManualAdd_once (form : ImportForm) :
  let first := handleManualAdd form in
  (fst first = Some (newTitle form, newContent form)
   <-> newTitle form <> [] /\ newContent form <> [])
  /\ (fst first = None <-> newTitle form = [] \/ newContent form = [])
  /\ (fst first = None -> snd first = form)
  /\ (fst first <> None -> snd first = mkForm false [] [])
  /\ (fst first <> None -> fst (handleManualAdd (snd first)) = None)
  /\ fst (handleManualAdd (mkForm true (lit "Blank") (lit " ")))
     = Some (lit "Blank", lit " ")
  /\ tokenize (lit " ") = [].
Proof.
  cbv zeta. unfold handleManualAdd.
  destruct (nonempty (newTitle form) && nonempty (newContent form)) eqn:E;
    cbn [fst snd].
  - apply andb_prop in E. destruct E as [Ht Hc].
    apply nonempty_true in Ht. apply nonempty_true in Hc.
    refine (conj _ (conj _ (conj _ (conj _ (conj _ (conj eq_refl eq_refl)))))).
    + split; auto.
    + split; [discriminate | intros [H | H]; contradiction].
    + discriminate.
    + reflexivity.
    + reflexivity.
  - assert (Hnot : newTitle form = [] \/ newContent form = []).
    { apply andb_false_iff in E. destruct E as [E | E].
      - left. destruct (nonempty_true_or_nil (newTitle form)); congruence.
      - right. destruct (nonempty_true_or_nil (newContent form)); congruence. }
    refine (conj _ (conj _ (conj _ (conj _ (conj _ (conj eq_refl eq_refl)))))).
    + split; [discriminate | intros [H1 H2]; destruct Hnot; contradiction].
    + split; auto.
    + reflexivity.
    + intros H. now contradiction H.
    + intros H. now contradiction H.
Qed.

(** ** Paths inside an EPUB *)

Lemma lastIndexOf_from_absent c s :
  forall pos, ~ In c s -> lastIndexOf_from pos c s = -1.
Proof.
  induction s as [|x rest IH]; intros pos Hno; trivial.
  cbn [lastIndexOf_from]. rewrite IH by (intros H; apply Hno; now right).
  cbn. destruct (N.eqb_spec x c) as [-> | _]; [|reflexivity].
  exfalso. apply Hno. now left.
Qed.

Lemma lastIndexOf_from_last c dir file :
  ~ In c file ->
  forall pos, 0 <= pos ->
    lastIndexOf_from pos c (dir ++ c :: file) = pos + Z.of_nat (length dir).
Proof.
  intros Hno. induction dir as [|x dir IH]; intros pos Hpos.
  - cbn [app lastIndexOf_from length]. rewrite lastIndexOf_from_absent by trivial.
    cbn. rewrite N.eqb_refl. lia.
  - cbn [app lastIndexOf_from]. rewrite IH by lia.
    destruct (Z.eqb_spec (pos + 1 + Z.of_nat (length dir)) (-1)); [lia|].
    cbn [length]. lia.
Qed.

Lemma firstn_length_app {A : Type} (l r : list A) :
  firstn (length l) (l ++ r) = l.
Proof. induction l as [|x l IH]; simpl; [reflexivity | now rewrite IH]. Qed.

(** X21: where the EPUB service looks for a chapter.  The directory of the
    package file is everything before its last slash, and the chapter's [href]
    is resolved against it; a package file at the top level, and one directly
    under a leading slash, give the empty directory, and then the [href] is
    used as it is. *)
Theorem opf_item_paths :
  (forall opfPath href,
      ~ In 47%N opfPath ->
      lastIndexOf opfPath 47%N = -1
      /\ opfDir opfPath = []
      /\ itemPath opfPath href = href)
  /\ (forall dir file href,
         ~ In 47%N file ->
         lastIndexOf (dir ++ lit "/" ++ file) 47%N = Z.of_nat (length dir)
         /\ opfDir (dir ++ lit "/" ++ file) = dir
         /\ (dir <> [] ->
             itemPath (dir ++ lit "/" ++ file) href = dir ++ lit "/" ++ href)
         /\ (dir = [] -> itemPath (dir ++ lit "/" ++ file) href = href)).
Proof.
  split.
  - intros opfPath href Hno.
    assert (Hidx : lastIndexOf opfPath 47%N = -1)
      by now apply lastIndexOf_from_absent.
    assert (Hdir : opfDir opfPath = []).
    { unfold opfDir, substring. rewrite Hidx.
      replace (Z.min (Z.max 0 0) (jslength opfPath)) with 0
        by (unfold jslength; lia).
      replace (Z.min (Z.max (-1) 0) (jslength opfPath)) with 0
        by (unfold jslength; lia).
      reflexivity. }
    unfold itemPath. rewrite Hdir. now repeat split.
  - intros dir file href Hno.
    set (p := dir ++ lit "/" ++ file).
    assert (Hp : p = dir ++ 47%N :: file) by reflexivity.
    assert (Hidx : lastIndexOf p 47%N = Z.of_nat (length dir)).
    { rewrite Hp. unfold lastIndexOf.
      rewrite lastIndexOf_from_last by (trivial; lia). lia. }
    assert (Hdir : opfDir p = dir).
    { unfold opfDir. rewrite Hidx, substring_before.
      - rewrite Nat2Z.id, Hp. apply firstn_length_app.
      - rewrite Hp. unfold jslength. rewrite length_app. simpl length. lia. }
    unfold itemPath. rewrite Hdir.
    split; [exact Hidx|]. split; [reflexivity|]. split.
    + intros Hne. destruct dir; [congruence | reflexivity].
    + intros ->. reflexivity.
Qed.

Example opf_item_path_samples :
  itemPath (lit "OEBPS/content.opf") (lit "ch1.xhtml")
  = lit "OEBPS/ch1.xhtml"
  /\ itemPath (lit "content.opf") (lit "ch1.xhtml") = lit "ch1.xhtml"
  /\ itemPath (lit "/content.opf") (lit "ch1.xhtml") = lit "ch1.xhtml"
  /\ itemPath (lit "a/b/content.opf") (lit "ch1.xhtml")
     = lit "a/b/ch1.xhtml".
Proof. repeat split. Qed.

(** ** Downloads from the Gutenberg explorer *)

Section DownloadFacts.

Variable encodeURIComponent : jsstring -> jsstring.
Variable fetch : jsstring -> option Response.
Variable extractTextFromEpub : jsstring -> option (jsstring * jsstring).

Local Notation "'run'" :=
  (handleDownload encodeURIComponent fetch extractTextFromEpub).
Local Notation "'get'" := (download encodeURIComponent fetch).

Lemma truthy_url (url : option jsstring) :
  truthy url = true -> exists c u, url = Some (c :: u).
Proof. destruct url as [[|c u]|]; try discriminate. now exists c, u. Qed.

Lemma truthy_false (url : option jsstring) :
  truthy url = false -> url = None \/ url = Some [].
Proof. destruct url as [[|c u]|]; try discriminate; auto. Qed.

(** X22: every download ends in one of two ways.  Either a book is handed to
    [onAddBook] and the explorer closes without an alert, or nothing is added,
    an alert is shown and the explorer stays open; [downloadingId] is cleared
    in both.  The alert is the missing-format one exactly when the book has
    neither an EPUB or Mobipocket link nor a plain-text link.  What is added is
    fixed by the link used: from an EPUB or Mobipocket link the extracted
    text under the extracted title, or under the catalogue title when the
    extracted title is empty; from a plain-text link, used only when there is
    no EPUB or Mobipocket link, the downloaded text under the catalogue
    title. *)
Theorem handleDownload_outcomes (book : GutenbergBook) :
  downloadingId (run book) = None
  /\ ((exists new, added (run book) = Some new
                   /\ closed (run book) = true
                   /\ alerted (run book) = None)
      \/ (exists a, added (run book) = None
                    /\ closed (run book) = false
                    /\ alerted (run book) = Some a))
  /\ (alerted (run book) = Some NoCompatibleFormat
      <-> truthy (epubUrlOf book) = false /\ truthy (textUrlOf book) = false)
  /\ (forall t text, added (run book) = Some (t, text) ->
        t = gtitle book \/ t <> [])
  /\ (forall url blob t text,
        epubUrlOf book = Some url -> url <> [] ->
        get url = inr blob ->
        extractTextFromEpub blob = Some (t, text) ->
        (t <> [] -> added (run book) = Some (t, text))
        /\ (t = [] -> added (run book) = Some (gtitle book, text)))
  /\ (forall url text,
        truthy (epubUrlOf book) = false ->
        textUrlOf book = Some url -> url <> [] ->
        get url = inr text ->
        added (run book) = Some (gtitle book, text)).
Proof.
  assert (Hfirst :
    downloadingId (run book) = None
    /\ ((exists new, added (run book) = Some new
                     /\ closed (run book) = true
                     /\ alerted (run book) = None)
        \/ (exists a, added (run book) = None
                      /\ closed (run book) = false
                      /\ alerted (run book) = Some a))
    /\ (alerted (run book) = Some NoCompatibleFormat
        <-> truthy (epubUrlOf book) = false /\ truthy (textUrlOf book) = false)
    /\ (forall t text, added (run book) = Some (t, text) ->
          t = gtitle book \/ t <> [])).
  { unfold handleDownload, tryDownload.
    destruct (epubUrlOf book) as [[|c u]|] eqn:Ee;
      destruct (textUrlOf book) as [[|c' u']|] eqn:Et; cbn [truthy];
      repeat match goal with
             | |- context [get ?x] => destruct (get x) as [e | data]
             | |- context [extractTextFromEpub ?x] =>
                 destruct (extractTextFromEpub x) as [[[|a t] text]|]
             end;
      cbn [added closed alerted downloadingId];
      (split; [reflexivity|]);
      (split; [first [left; eexists; repeat split; reflexivity
                     | right; eexists; repeat split; reflexivity]|]);
      (split; [split; [intros H; first [discriminate H | now split]
                      | intros [H1 H2]; first [discriminate | reflexivity]]|]);
      intros t0 text0 H; try discriminate H; injection H as <- <-;
      first [now left | right; discriminate]. }
  destruct Hfirst as (H1 & H2 & H3 & H4).
  refine (conj H1 (conj H2 (conj H3 (conj H4 (conj _ _))))).
  - intros url blob t text Hurl Hne Hget Hext.
    unfold handleDownload, tryDownload. rewrite Hurl.
    destruct url as [|c u]; [congruence|]. rewrite Hget, Hext.
    split; intros Ht.
    + destruct t; [congruence | reflexivity].
    + now rewrite Ht.
  - intros url text Hno Hurl Hne Hget.
    unfold handleDownload, tryDownload. rewrite Hurl.
    destruct url as [|c u]; [congruence|].
    destruct (truthy_false _ Hno) as [-> | ->]; now rewrite Hget.
Qed.

(** Both title rules on a network that serves every request. *)
Example handleDownload_titles :
  let served (url : jsstring) := Some (mkResponse true 200 (Some url)) in
  added (handleDownload (fun u => u) served
           (fun blob => Some ([], lit "It was on a dreary night"))
           sampleGutenberg)
  = Some (lit "Frankenstein", lit "It was on a dreary night")
  /\ added (handleDownload (fun u => u) served
              (fun blob => Some (lit "The Modern Prometheus", lit "Letter 1"))
              sampleGutenberg)
     = Some (lit "The Modern Prometheus", lit "Letter 1").
Proof. split; reflexivity. Qed.

(** X23: an EPUB or Mobipocket link decides the download alone.  When the book
    has one, its plain-text links play no part: two books that agree on title
    and on that link have the same outcome, and if the download or the
    extraction fails nothing is added even where a text link exists. *)
Theorem handleDownload_no_text_fallback (book other : GutenbergBook) :
  truthy (epubUrlOf book) = true ->
  epubUrlOf other = epubUrlOf book ->
  gtitle other = gtitle book ->
  run other = run book
  /\ (forall url e, epubUrlOf book = Some url -> get url = inl e ->
        run book = mkOutcome None false (Some (FailedToAdd e)) None)
  /\ (forall url blob, epubUrlOf book = Some url -> get url = inr blob ->
        extractTextFromEpub blob = None ->
        run book = mkOutcome None false (Some (FailedToAdd ExtractFailed)) None).
Proof.
  intros Htruthy Hsame Htitle.
  destruct (truthy_url _ Htruthy) as (c & u & Hurl).
  unfold handleDownload, tryDownload. rewrite Hsame, Htitle, Hurl.
  repeat apply conj.
  - reflexivity.
  - intros url e [= <-] He. now rewrite He.
  - intros url blob [= <-] Hblob Hext. now rewrite Hblob, Hext.
Qed.

End DownloadFacts.

Lemma handleDownload_no_text_fallback_witness :
  truthy (epubUrlOf sampleGutenberg) = true
  /\ truthy (textUrlOf sampleGutenberg) = true
  /\ handleDownload (fun u => u) notFound (fun _ => None) sampleGutenberg
     = mkOutcome None false (Some (FailedToAdd (HttpError 404))) None.
Proof.
  split; [reflexivity|]. split; [reflexivity|].
  destruct (handleDownload_no_text_fallback (fun u => u) notFound
              (fun _ => None) sampleGutenberg sampleGutenberg
              eq_refl eq_refl eq_refl) as (_ & Hfail & _).
  exact (Hfail _ (HttpError 404) eq_refl eq_refl).
Defined.
